(** * Image-MetaHub: the verification scripts under jules-scratch/verification

    The development embeds
    - the mocked [window.electronAPI] that verify_progressive_loading.py
      injects into the page (the progressive directory-scan channel:
      [streamDirectoryFiles], [onDirectoryScanBatch],
      [onDirectoryScanComplete], [onDirectoryScanError],
      [updateAllowedPaths], ...), together with the part of the browser it
      runs on: the listener list of [window], [setTimeout] and the timer
      queue, [dispatchEvent], [Date.now];
    - the control flow of verify_hotkeys.py and verify_hotkeys_fix.py
      (setup, [try] / [except Exception] / [finally]).
    The front-end consumer of the channel is not part of these scripts; it is
    modelled from the specification in module [Consumer]. *)

From Stdlib Require Import List String Ascii ZArith Lia Bool Arith.
From Stdlib Require Import DecimalString Sorted.
Import ListNotations.

Local Open Scope Z_scope.
Set Warnings "-register-all".

(* ------------------------------------------------------------------ *)
(** ** JavaScript values used by the mock *)

Module Js.

(** The values the mock returns: [undefined], booleans, numbers, strings and
    object literals. *)
Inductive value : Type :=
| Undefined
| Bool (b : bool)
| Num (z : Z)
| Str (s : string)
| Obj (fields : list (string * value)).

(** [Promise.resolve(v)]: the only promises of the mock are already
    resolved. *)
Inductive Promise (A : Type) : Type :=
| Resolved (a : A).
Arguments Resolved {A} a.

(** [`${n}`] for a non-negative integer [n]. *)
Definition number_to_string (n : nat) : string :=
  NilEmpty.string_of_uint (Nat.to_uint n).

End Js.

(* ------------------------------------------------------------------ *)
(** ** The page: window listeners, timers, and the mocked electronAPI *)

Module Mock.

Import Js.

Definition DirectoryId := string.

(** The consumer's function handed to a subscription, by identity. *)
Definition Callback := nat.

(** [{ name, lastModified }] *)
Record FileEntry : Type := mkFile {
  name : string;
  lastModified : Z
}.

(** The [detail] objects the mock builds:
    [{ directoryId, files }] and [{ directoryId, total }]. *)
Inductive Detail : Type :=
| BatchDetail (directoryId : DirectoryId) (files : list FileEntry)
| CompleteDetail (directoryId : DirectoryId) (total : Z).

(** [new CustomEvent(type, { detail })] *)
Record CustomEvent : Type := mkEvent {
  type : string;
  detail : Detail
}.

(** The closure [(event) => callback(event.detail)]: a fresh function object
    per subscription ([handler_id] is its identity) capturing [callback]. *)
Record Handler : Type := mkHandler {
  handler_id : nat;
  callback : Callback
}.

(** One entry of the window's event-listener list. *)
Record Listener : Type := mkListener {
  listens_to : string;
  handler : Handler
}.

(** A pending [setTimeout]; every timer callback of the mock is
    [() => window.dispatchEvent(task)]. *)
Record Timer : Type := mkTimer {
  due : Z;
  task : CustomEvent
}.

(** One invocation [callback(event.detail)], kept in an observation log:
    which handler ran, for which consumer callback, on which emission (the
    index of the event in [dispatched]) and with which detail. *)
Record Delivery : Type := mkDelivery {
  to_handler : nat;
  to_callback : Callback;
  emission : nat;
  payload : Detail
}.

(** The state of the page.  [dispatched] and [delivered] are observation
    logs: every [dispatchEvent] and every callback invocation, in order. *)
Record Window : Type := mkWindow {
  now : Z;                        (* what Date.now() returns *)
  next_handler : nat;             (* next function-object identity *)
  listeners : list Listener;      (* in registration order *)
  timers : list Timer;            (* pending, earliest first *)
  dispatched : list CustomEvent;
  delivered : list Delivery
}.

Definition initial_window (t0 : Z) : Window :=
  mkWindow t0 0 [] [] [] [].

Definition set_now (t : Z) (w : Window) : Window :=
  mkWindow t (next_handler w) (listeners w) (timers w) (dispatched w) (delivered w).
Definition set_next_handler (n : nat) (w : Window) : Window :=
  mkWindow (now w) n (listeners w) (timers w) (dispatched w) (delivered w).
Definition set_listeners (ls : list Listener) (w : Window) : Window :=
  mkWindow (now w) (next_handler w) ls (timers w) (dispatched w) (delivered w).
Definition set_timers (q : list Timer) (w : Window) : Window :=
  mkWindow (now w) (next_handler w) (listeners w) q (dispatched w) (delivered w).
Definition log_dispatch (ev : CustomEvent) (ds : list Delivery) (w : Window) : Window :=
  mkWindow (now w) (next_handler w) (listeners w) (timers w)
           (dispatched w ++ [ev]) (delivered w ++ ds).

(** *** A state monad over the page *)

Definition Eff (A : Type) : Type := Window -> A * Window.

Definition ret {A : Type} (a : A) : Eff A := fun w => (a, w).
Definition bind {A B : Type} (c : Eff A) (k : A -> Eff B) : Eff B :=
  fun w => let (a, w') := c w in k a w'.
Definition exec {A : Type} (c : Eff A) (w : Window) : Window := snd (c w).
Definition result {A : Type} (c : Eff A) (w : Window) : A := fst (c w).

Declare Scope eff_scope.
Delimit Scope eff_scope with eff.
Notation "x <- c ;; k" := (bind c (fun x => k))
  (at level 61, c at next level, right associativity) : eff_scope.
Notation "c ;; k" := (bind c (fun _ => k))
  (at level 61, right associativity) : eff_scope.

(** *** Browser primitives *)

(** [Date.now()].  A synchronous call is instantaneous here: the clock moves
    between calls ([Elapse]) and when a timer fires. *)
Definition Date_now : Eff Z := fun w => (now w, w).

(** [Array.from({ length: len }, (_, i) => f(i))], where the callback [f]
    may read the page: it runs once per index, in ascending order. *)
Fixpoint array_from_indices {A : Type} (f : nat -> Eff A) (indices : list nat)
  : Eff (list A) :=
  match indices with
  | [] => ret []
  | i :: rest =>
      bind (f i) (fun x =>
      bind (array_from_indices f rest) (fun xs =>
      ret (x :: xs)))
  end.

Definition Array_from {A : Type} (len : nat) (f : nat -> Eff A) : Eff (list A) :=
  array_from_indices f (seq 0 len).

Definition same_listener (ty : string) (h : Handler) (l : Listener) : bool :=
  String.eqb (listens_to l) ty && Nat.eqb (handler_id (handler l)) (handler_id h).

(** [window.addEventListener(type, handler)]: a listener already registered
    for the same type with the same function object is not added twice. *)
Definition addEventListener (ty : string) (h : Handler) : Eff unit :=
  fun w =>
    if existsb (same_listener ty h) (listeners w) then (tt, w)
    else (tt, set_listeners (listeners w ++ [mkListener ty h]) w).

(** [window.removeEventListener(type, handler)]: removes the matching entry,
    does nothing when there is none. *)
Definition removeEventListener (ty : string) (h : Handler) : Eff unit :=
  fun w =>
    (tt, set_listeners
           (filter (fun l => negb (same_listener ty h l)) (listeners w)) w).

(** The timer queue is kept in firing order: by due time, and among equal
    due times in the order of the [setTimeout] calls. *)
Fixpoint insert_timer (t : Timer) (q : list Timer) : list Timer :=
  match q with
  | [] => [t]
  | x :: q' => if due x <=? due t then x :: insert_timer t q' else t :: q
  end.

(** [setTimeout(() => window.dispatchEvent(ev), delay)] *)
Definition setTimeout (ev : CustomEvent) (delay : Z) : Eff unit :=
  fun w => (tt, set_timers (insert_timer (mkTimer (now w + delay) ev) (timers w)) w).

Definition deliveries_of (n : nat) (ev : CustomEvent) (ls : list Listener)
  : list Delivery :=
  map (fun l => mkDelivery (handler_id (handler l)) (callback (handler l))
                           n (detail ev))
      (filter (fun l => String.eqb (listens_to l) (type ev)) ls).

(** [window.dispatchEvent(ev)]: synchronously invokes, in registration
    order, every listener registered for [ev.type]; each handler of the mock
    calls its callback with [ev.detail]. *)
Definition dispatchEvent (ev : CustomEvent) : Eff unit :=
  fun w =>
    (tt, log_dispatch ev
           (deliveries_of (List.length (dispatched w)) ev (listeners w)) w).

(** Allocation of a function object. *)
Definition new_handler (cb : Callback) : Eff Handler :=
  fun w => (mkHandler (next_handler w) cb, set_next_handler (S (next_handler w)) w).

(** *** window.electronAPI *)

Definition batch_event : string := "directory-scan-batch".
Definition complete_event : string := "directory-scan-complete".
Definition error_event : string := "directory-scan-error".

(** The argument object of [streamDirectoryFiles]; the mock destructures
    [directoryId] only. *)
Record StreamArgs : Type := mkArgs {
  arg_directoryId : DirectoryId;
  arg_path : string
}.

Definition file_name (n : nat) : string :=
  ("file" ++ number_to_string n ++ ".png")%string.

Local Open Scope eff_scope.

(** [Array.from({ length: 50 }, (_, i) => ({ name: `file${i + first}.png`,
    lastModified: Date.now() }))] *)
Definition make_files (first : nat) : Eff (list FileEntry) :=
  Array_from 50 (fun i => t <- Date_now ;; ret (mkFile (file_name (i + first)) t)).

(** A function returned by a subscription:
    [() => window.removeEventListener(type, handler)]. *)
Record Unsubscribe : Type := mkUnsubscribe {
  unsub_type : string;
  unsub_handler : Handler
}.

Definition call_unsubscribe (u : Unsubscribe) : Eff unit :=
  removeEventListener (unsub_type u) (unsub_handler u).

Definition showDirectoryDialog : Eff (Promise value) :=
  ret (Resolved (Obj [("canceled"%string, Bool false);
                      ("path"%string, Str "/__tests__/fixtures/images");
                      ("name"%string, Str "images")])).

Definition streamDirectoryFiles (args : StreamArgs) : Eff (Promise value) :=
  let directoryId := arg_directoryId args in
  files1 <- make_files 1 ;;
  files2 <- make_files 51 ;;
  setTimeout (mkEvent batch_event (BatchDetail directoryId files1)) 100 ;;
  setTimeout (mkEvent batch_event (BatchDetail directoryId files2)) 300 ;;
  setTimeout (mkEvent complete_event (CompleteDetail directoryId 100)) 500 ;;
  ret (Resolved (Obj [("success"%string, Bool true)])).

Definition onDirectoryScanBatch (cb : Callback) : Eff (option Unsubscribe) :=
  h <- new_handler cb ;;
  addEventListener batch_event h ;;
  ret (Some (mkUnsubscribe batch_event h)).

Definition onDirectoryScanComplete (cb : Callback) : Eff (option Unsubscribe) :=
  h <- new_handler cb ;;
  addEventListener complete_event h ;;
  ret (Some (mkUnsubscribe complete_event h)).

(** [(callback) => { /* No-op for this test */ }]: the call returns
    [undefined], here [None]. *)
Definition onDirectoryScanError (cb : Callback) : Eff (option Unsubscribe) :=
  ret None.

(** [() => Promise.resolve()] *)
Definition updateAllowedPaths (paths : list string) : Eff (Promise value) :=
  ret (Resolved Undefined).

Definition onMenuAddFolder (cb : Callback) : Eff value :=
  ret Undefined.

Definition getTheme : Eff (Promise value) :=
  ret (Resolved (Obj [("shouldUseDarkColors"%string, Bool true)])).

(** *** The event loop *)

(** One turn of the event loop: the earliest pending timer fires. *)
Definition run_next_timer : Eff unit :=
  fun w =>
    match timers w with
    | [] => (tt, w)
    | t :: q =>
        dispatchEvent (task t) (set_now (Z.max (now w) (due t)) (set_timers q w))
    end.

Fixpoint run_timers (turns : nat) (w : Window) : Window :=
  match turns with
  | O => w
  | S k => run_timers k (exec run_next_timer w)
  end.

(** Runs the event loop until no timer is pending.  No timer callback of the
    mock sets a timer, so one turn per pending timer is enough. *)
Definition drain (w : Window) : Window :=
  run_timers (List.length (timers w)) w.

(** *** Programs of the page

    What the application under test may do with the mocked API, one call
    after the other, while time passes and the event loop turns.
    [CallUnsubscribe] takes any unsubscribe function, also one that no
    subscription returned: a page can only do less. *)
Inductive Op : Type :=
| CallShowDirectoryDialog
| CallStreamDirectoryFiles (args : StreamArgs)
| CallOnDirectoryScanBatch (cb : Callback)
| CallOnDirectoryScanComplete (cb : Callback)
| CallOnDirectoryScanError (cb : Callback)
| CallUpdateAllowedPaths (paths : list string)
| CallOnMenuAddFolder (cb : Callback)
| CallGetTheme
| CallUnsubscribe (u : Unsubscribe)
| Elapse (ms : Z)
| Turn.

Definition step (o : Op) (w : Window) : Window :=
  match o with
  | CallShowDirectoryDialog => exec showDirectoryDialog w
  | CallStreamDirectoryFiles args => exec (streamDirectoryFiles args) w
  | CallOnDirectoryScanBatch cb => exec (onDirectoryScanBatch cb) w
  | CallOnDirectoryScanComplete cb => exec (onDirectoryScanComplete cb) w
  | CallOnDirectoryScanError cb => exec (onDirectoryScanError cb) w
  | CallUpdateAllowedPaths paths => exec (updateAllowedPaths paths) w
  | CallOnMenuAddFolder cb => exec (onMenuAddFolder cb) w
  | CallGetTheme => exec getTheme w
  | CallUnsubscribe u => exec (call_unsubscribe u) w
  | Elapse ms => set_now (now w + Z.max 0 ms) w
  | Turn => exec run_next_timer w
  end.

Definition run (ops : list Op) (w : Window) : Window :=
  fold_left (fun w o => step o w) ops w.

(** *** Observations *)

Definition directory_of (ev : CustomEvent) : DirectoryId :=
  match detail ev with
  | BatchDetail d _ => d
  | CompleteDetail d _ => d
  end.

Definition is_for (d : DirectoryId) (ev : CustomEvent) : bool :=
  String.eqb (directory_of ev) d.

(** The events of one directoryId, in emission order. *)
Definition events_for (d : DirectoryId) (evs : list CustomEvent)
  : list CustomEvent :=
  filter (is_for d) evs.

Definition is_batch (ev : CustomEvent) : bool :=
  String.eqb (type ev) batch_event.

(** Terminal events: completion or error. *)
Definition is_terminal (ev : CustomEvent) : bool :=
  String.eqb (type ev) complete_event || String.eqb (type ev) error_event.

Definition file_count (ev : CustomEvent) : nat :=
  match detail ev with
  | BatchDetail _ files => List.length files
  | CompleteDetail _ _ => 0
  end.

(** Sum of the lengths of the [files] of the batch events of [d]. *)
Definition batch_file_total (d : DirectoryId) (evs : list CustomEvent) : nat :=
  list_sum (map file_count (filter is_batch (events_for d evs))).

(** How many times [streamDirectoryFiles] is called with [directoryId = d]. *)
Definition is_scan_of (d : DirectoryId) (o : Op) : bool :=
  match o with
  | CallStreamDirectoryFiles args => String.eqb (arg_directoryId args) d
  | _ => false
  end.

Definition scans_of (d : DirectoryId) (ops : list Op) : nat :=
  List.length (filter (is_scan_of d) ops).

(** The 50 files a call made at time [t] builds, numbered from [first]. *)
Definition files_at (first : nat) (t : Z) : list FileEntry :=
  map (fun i => mkFile (file_name (i + first)) t) (seq 0 50).

(** The three events one call schedules, for a call made at time [t]. *)
Definition scan_events (d : DirectoryId) (t : Z) : list CustomEvent :=
  [ mkEvent batch_event (BatchDetail d (files_at 1 t));
    mkEvent batch_event (BatchDetail d (files_at 51 t));
    mkEvent complete_event (CompleteDetail d 100) ].

(** What a handler has received so far. *)
Definition received_by (h : nat) (w : Window) : list Delivery :=
  filter (fun dl => Nat.eqb (to_handler dl) h) (delivered w).

(** The timers a call sets, in firing order: the queue it leaves when it is
    started with no timer pending. *)
Definition scheduled_by {A : Type} (c : Eff A) (w : Window) : list Timer :=
  timers (exec c (set_timers [] w)).

(** What of an event does not come from the call's input: its type, and the
    file names or the total. *)
Definition event_shape (ev : CustomEvent) : string * (list string + Z) :=
  (type ev,
   match detail ev with
   | BatchDetail _ files => inl (map name files)
   | CompleteDetail _ total => inr total
   end).

(** *** Vocabulary of the statements about the page *)

(** The queue order: earlier due time first. *)
Definition by_due (a b : Timer) : Prop := due a <= due b.

(** The page's timers selected by directoryId. *)
Definition timers_for (d : DirectoryId) (q : list Timer) : list Timer :=
  filter (fun t => is_for d (task t)) q.

(** The three timers of one call made at time [t]. *)
Definition scan_timers (d : DirectoryId) (t : Z) : list Timer :=
  [ mkTimer (t + 100) (mkEvent batch_event (BatchDetail d (files_at 1 t)));
    mkTimer (t + 300) (mkEvent batch_event (BatchDetail d (files_at 51 t)));
    mkTimer (t + 500) (mkEvent complete_event (CompleteDetail d 100)) ].

Definition insert_timers (ts : list Timer) (q : list Timer) : list Timer :=
  fold_left (fun q t => insert_timer t q) ts q.

(** The function object a subscription made on page [w] creates. *)
Definition fresh_handler (cb : Callback) (w : Window) : Handler :=
  mkHandler (next_handler w) cb.

Definition add_listener (ty : string) (h : Handler) (ls : list Listener)
  : list Listener :=
  if existsb (same_listener ty h) ls then ls else ls ++ [mkListener ty h].

Definition remove_listener (u : Unsubscribe) (ls : list Listener) : list Listener :=
  filter (fun l => negb (same_listener (unsub_type u) (unsub_handler u) l)) ls.

(** Every function object the page knows was allocated before
    [next_handler], and every delivery is of an event already in the log. *)
Definition well_formed (w : Window) : Prop :=
  Forall (fun l => (handler_id (handler l) < next_handler w)%nat) (listeners w)
  /\ Forall (fun dl => (to_handler dl < next_handler w)%nat) (delivered w)
  /\ Forall (fun dl => (emission dl < List.length (dispatched w))%nat) (delivered w).

(** Both working subscriptions of the mock are this function at their
    event type. *)
Definition subscription (ty : string) (cb : Callback) : Eff (option Unsubscribe) :=
  h <- new_handler cb ;;
  addEventListener ty h ;;
  ret (Some (mkUnsubscribe ty h)).

(** Handler [h] exists and is registered, if at all, for type [ty] only. *)
Definition registered_as (h : nat) (ty : string) (w : Window) : Prop :=
  (h < next_handler w)%nat
  /\ Forall (fun l => handler_id (handler l) = h -> listens_to l = ty) (listeners w).

(** Handler [h] exists and is not registered. *)
Definition unregistered (h : nat) (w : Window) : Prop :=
  (h < next_handler w)%nat
  /\ Forall (fun l => handler_id (handler l) <> h) (listeners w).

(** The events a handler receives were emitted no earlier than [n], once
    this holds and [n] events have been emitted. *)
Definition receives_from (n h : nat) (w : Window) : Prop :=
  (n <= List.length (dispatched w))%nat
  /\ Forall (fun dl => (n <= emission dl)%nat) (received_by h w).

(** A subscription made after [ops0], by a subscription operation [sub]:
    its handler has received nothing when the call returns, and whatever the
    page does next ([ops1]), every event it receives was emitted after the
    events already emitted when it registered. *)
Definition no_replay (sub : Callback -> Eff (option Unsubscribe)) : Prop :=
  forall (ops0 ops1 : list Op) (t0 : Z) (cb : Callback),
  exists u,
    result (sub cb) (run ops0 (initial_window t0)) = Some u
    /\ received_by (handler_id (unsub_handler u))
                   (exec (sub cb) (run ops0 (initial_window t0))) = []
    /\ Forall (fun dl =>
                 (List.length (dispatched (run ops0 (initial_window t0)))
                  <= emission dl)%nat)
              (received_by (handler_id (unsub_handler u))
                 (run ops1 (exec (sub cb) (run ops0 (initial_window t0))))).

Definition has_type (ty : string) (ev : CustomEvent) : bool :=
  String.eqb (type ev) ty.

(** Calls of the unsubscribe function of handler [h]. *)
Definition unsubscribes (h : nat) (o : Op) : bool :=
  match o with
  | CallUnsubscribe u => Nat.eqb (handler_id (unsub_handler u)) h
  | _ => false
  end.

Definition keeps_registered (h : nat) (ops : list Op) : bool :=
  forallb (fun o => negb (unsubscribes h o)) ops.

(** Handler [h], wrapping [cb], is on the listener list, once, for [ty]. *)
Definition listening (h : nat) (ty : string) (cb : Callback) (w : Window) : Prop :=
  (h < next_handler w)%nat
  /\ filter (fun l => Nat.eqb (handler_id (handler l)) h) (listeners w)
     = [mkListener ty (mkHandler h cb)].

(** A subscription of type [ty] made after [ops0], by a subscription
    operation [sub], and not unsubscribed during [ops1]: its callback is
    called with the detail of every event of type [ty] emitted during
    [ops1], once each and in emission order, and with nothing else. *)
Definition delivers_while_registered
  (ty : string) (sub : Callback -> Eff (option Unsubscribe)) : Prop :=
  forall (ops0 ops1 : list Op) (t0 : Z) (cb : Callback),
  exists u,
    result (sub cb) (run ops0 (initial_window t0)) = Some u
    /\ (keeps_registered (handler_id (unsub_handler u)) ops1 = true ->
        exists emitted,
          dispatched (run ops1 (exec (sub cb) (run ops0 (initial_window t0))))
          = dispatched (run ops0 (initial_window t0)) ++ emitted
          /\ map payload
                 (received_by (handler_id (unsub_handler u))
                    (run ops1 (exec (sub cb) (run ops0 (initial_window t0)))))
             = map detail (filter (has_type ty) emitted)).

(** What a subscription operation [sub] promises about the function it
    returns.  [w2] below is the page at any later moment ([ops1] after the
    subscription), at which the function is called. *)
Definition unsubscribe_contract (sub : Callback -> Eff (option Unsubscribe)) : Prop :=
  forall (ops0 : list Op) (t0 : Z) (cb : Callback),
  exists u,
    result (sub cb) (run ops0 (initial_window t0)) = Some u
    (* calling it once more, any number of times, changes nothing *)
    /\ (forall n w,
           Nat.iter n (exec (call_unsubscribe u)) (exec (call_unsubscribe u) w)
           = exec (call_unsubscribe u) w)
    /\ (forall ops1,
           let w2 := run ops1 (exec (sub cb) (run ops0 (initial_window t0))) in
           let w3 := exec (call_unsubscribe u) w2 in
           (* the very next dispatched event does not reach the handler *)
           (forall ev,
               received_by (handler_id (unsub_handler u)) (exec (dispatchEvent ev) w3)
               = received_by (handler_id (unsub_handler u)) w2)
           (* nor does any later one, whatever the page does *)
           /\ (forall ops2,
                  received_by (handler_id (unsub_handler u)) (run ops2 w3)
                  = received_by (handler_id (unsub_handler u)) w2)
           (* every other registered handler still receives *)
           /\ (forall ev l,
                  In l (listeners w2) ->
                  handler_id (handler l) <> handler_id (unsub_handler u) ->
                  listens_to l = type ev ->
                  In (mkDelivery (handler_id (handler l)) (callback (handler l))
                                 (List.length (dispatched w3)) (detail ev))
                     (delivered (exec (dispatchEvent ev) w3)))).

(** A scheduled timer without what comes from the call's input: its delay,
    the event type, and the file names or the total. *)
Definition schedule_shape (a : StreamArgs) (w : Window)
  : list (Z * (string * (list string + Z))) :=
  map (fun t => (due t - now w, event_shape (task t)))
      (scheduled_by (streamDirectoryFiles a) w).

Definition expected_shape : list (Z * (string * (list string + Z))) :=
  [ (100, (batch_event, inl (map file_name (seq 1 50))));
    (300, (batch_event, inl (map file_name (seq 51 50))));
    (500, (complete_event, inr 100)) ].

(** Whether a promise carries a DirectoryId. *)
Definition returns_directory_id (p : Js.Promise Js.value) : Prop :=
  exists d : DirectoryId, p = Js.Resolved (Js.Str d).

(** Scan-error events. *)
Definition is_error (ev : CustomEvent) : bool :=
  String.eqb (type ev) error_event.

(** A small run: two subscriptions, one scan, three turns of the loop. *)
Definition one_scan : list Op :=
  [ CallOnDirectoryScanBatch 0%nat;
    CallOnDirectoryScanComplete 1%nat;
    CallStreamDirectoryFiles (mkArgs "dir-1"%string "/__tests__/fixtures/images"%string);
    Turn; Turn; Turn ].

(** A page that sets an allowed path and then asks for a scan of another. *)
Definition disallowed_scan : list Op :=
  [ CallOnDirectoryScanBatch 0%nat;
    CallOnDirectoryScanComplete 1%nat;
    CallOnDirectoryScanError 2%nat;
    CallUpdateAllowedPaths ["/allowed"%string];
    CallStreamDirectoryFiles (mkArgs "dir-1"%string "/forbidden"%string) ].

End Mock.

(* ------------------------------------------------------------------ *)
(** ** The front-end consumer *)

Module Consumer.

Import Mock.

Local Open Scope nat_scope.

(** Modelled from the spec: the consumer side of the channel (section 4.3)
    is application code, absent from the scripts.  Its state machine per
    directoryId is [Idle -> Scanning -> {Loaded | Errored}]. *)
Inductive Phase : Type := Idle | Scanning | Loaded | Errored.

(** Modelled from the spec: the accumulator of section 4.3, the files
    accumulated so far, and a count of the anomalies it logged (events
    outside [Scanning], a completion whose total differs from the
    accumulated count). *)
Record State : Type := mkState {
  phase : Phase;
  accumulated : list FileEntry;
  anomalies : nat
}.

(** Modelled from the spec: the consumer before any request ([Idle]). *)
Definition idle : State := mkState Idle [] 0.

(** Modelled from the spec: the accumulated count. *)
Definition count (c : State) : nat := List.length (accumulated c).

(** Modelled from the spec: an event that is not valid in the current state
    is ignored and logged as an anomaly. *)
Definition anomaly (c : State) : State :=
  mkState (phase c) (accumulated c) (S (anomalies c)).

(** Modelled from the spec: "Scanning is entered on request submission". *)
Definition submit (c : State) : State :=
  match phase c with
  | Idle => mkState Scanning (accumulated c) (anomalies c)
  | _ => anomaly c
  end.

(** Modelled from the spec: "On each batch: appends files to its accumulated
    sequence"; "batches are only valid in Scanning". *)
Definition on_batch (files : list FileEntry) (c : State) : State :=
  match phase c with
  | Scanning => mkState Scanning (accumulated c ++ files) (anomalies c)
  | _ => anomaly c
  end.

(** Modelled from the spec: "On completion: asserts (or reconciles) that
    accumulated count equals total; transitions to a loaded terminal state";
    terminal states ignore further events, logged as anomalies. *)
Definition on_complete (total : Z) (c : State) : State :=
  match phase c with
  | Scanning =>
      mkState Loaded (accumulated c)
              (if Z.eqb (Z.of_nat (count c)) total then anomalies c
               else S (anomalies c))
  | _ => anomaly c
  end.

(** Modelled from the spec: "On error: transitions to an errored terminal
    state"; partial results are preserved (section 7). *)
Definition on_error (c : State) : State :=
  match phase c with
  | Scanning => mkState Errored (accumulated c) (anomalies c)
  | _ => anomaly c
  end.

(** Modelled from the spec: the consumer of directoryId [d] applies the
    details it is handed, in order, and leaves other ids alone. *)
Definition handle (d : DirectoryId) (x : Detail) (c : State) : State :=
  match x with
  | BatchDetail d' files => if String.eqb d' d then on_batch files c else c
  | CompleteDetail d' total => if String.eqb d' d then on_complete total c else c
  end.

(** Modelled from the spec: batches are applied in emission order. *)
Definition handle_all (d : DirectoryId) (xs : list Detail) (c : State) : State :=
  fold_left (fun c x => handle d x c) xs c.

(** Modelled from the spec: the consumer's three callbacks, by identity. *)
Definition batch_callback : Callback := 0.
Definition complete_callback : Callback := 1.
Definition error_callback : Callback := 2.

Local Open Scope eff_scope.

(** Modelled from the spec: the consumer subscribes to batches, completion
    and errors, here through the mocked API. *)
Definition attach : Eff unit :=
  onDirectoryScanBatch batch_callback ;;
  onDirectoryScanComplete complete_callback ;;
  onDirectoryScanError error_callback ;;
  ret tt.

(** Modelled from the spec: the details the consumer's callbacks were called
    with, in order. *)
Definition inbox (w : Window) : list Detail :=
  map payload
      (filter (fun dl => Nat.eqb (to_callback dl) batch_callback
                         || Nat.eqb (to_callback dl) complete_callback)
              (delivered w)).

(** Modelled from the spec: the consumer of [d] after everything the page
    delivered to it, having submitted its request. *)
Definition view (d : DirectoryId) (w : Window) : State :=
  handle_all d (inbox w) (submit idle).

(** The exercised scenario: the consumer subscribes, then the application
    asks for a scan of [d]. *)
Definition scenario (d : DirectoryId) (path : string) (t0 : Z) : Window :=
  exec (streamDirectoryFiles (mkArgs d path))
       (exec attach (initial_window t0)).

End Consumer.

(* ------------------------------------------------------------------ *)
(** ** The hotkey scripts: Playwright calls and Python control flow *)

Module Playwright.

(** The exceptions a call may raise, by class.  Playwright's [Error] (and
    its [TimeoutError]) and the [AssertionError] of a failed [expect] derive
    from [Exception]; [KeyboardInterrupt] and [SystemExit] do not. *)
Inductive Exn : Type :=
| PlaywrightError (msg : string)
| AssertionError (msg : string)
| KeyboardInterrupt
| SystemExit.

Definition is_Exception (e : Exn) : bool :=
  match e with
  | PlaywrightError _ | AssertionError _ => true
  | KeyboardInterrupt | SystemExit => false
  end.

(** [str(e)], as the f-string of the handler formats it. *)
Definition str (e : Exn) : string :=
  match e with
  | PlaywrightError msg => msg
  | AssertionError msg => msg
  | KeyboardInterrupt => ""
  | SystemExit => ""
  end.

Inductive Locator : Type :=
| get_by_text (text : string)
| get_by_role (role name : string)
| get_by_placeholder (text : string)
| locator (selector : string).

(** The calls the scripts make. *)
Inductive Call : Type :=
| chromium_launch (headless : bool)
| new_context
| new_page
| goto (url : string)
| evaluate (expression : string)
| reload
| expect_to_be_visible (l : Locator) (timeout : option Z)
| expect_not_to_be_visible (l : Locator)
| keyboard_press (key : string)
| screenshot (path : string)
| print (msg : string)
| browser_close.

(** One executed call and how it ended. *)
Record Entry : Type := mkEntry {
  called : Call;
  raised : option Exn
}.

(** The browser, the application under test and the user are outside the
    scripts: whether the [n]-th call of a run returns or raises is given by
    the environment. *)
Definition Env : Type := nat -> option Exn.

Inductive Outcome (A : Type) : Type :=
| Returned (a : A)
| Raised (e : Exn).
Arguments Returned {A} a.
Arguments Raised {A} e.

(** A computation: reads the environment, extends the trace of executed
    calls, and returns or raises. *)
Definition Py (A : Type) : Type := Env -> list Entry -> list Entry * Outcome A.

Definition ret {A : Type} (a : A) : Py A := fun _ tr => (tr, Returned a).

Definition bind {A B : Type} (c : Py A) (k : A -> Py B) : Py B :=
  fun env tr =>
    match c env tr with
    | (tr', Returned a) => k a env tr'
    | (tr', Raised e) => (tr', Raised e)
    end.

Definition call (c : Call) : Py unit :=
  fun env tr =>
    match env (List.length tr) with
    | None => (tr ++ [mkEntry c None], Returned tt)
    | Some e => (tr ++ [mkEntry c (Some e)], Raised e)
    end.

(** [finally]: the clause runs whatever the outcome so far; when it raises,
    its exception replaces the outcome. *)
Definition finally {A : Type} (c : Py A) (final : Py unit) : Py A :=
  fun env tr =>
    match c env tr with
    | (tr', out) =>
        match final env tr' with
        | (tr'', Returned _) => (tr'', out)
        | (tr'', Raised e) => (tr'', Raised e)
        end
    end.

(** [except Exception as e]: the handler runs for an exception of class
    [Exception]; any other propagates. *)
Definition except_Exception {A : Type} (c : Py A) (handler : Exn -> Py A) : Py A :=
  fun env tr =>
    match c env tr with
    | (tr', Returned a) => (tr', Returned a)
    | (tr', Raised e) =>
        if is_Exception e then handler e env tr' else (tr', Raised e)
    end.

(** [try: body / except Exception as e: handler / finally: final] *)
Definition try_except_finally {A : Type}
  (body : Py A) (handler : Exn -> Py A) (final : Py unit) : Py A :=
  finally (except_Exception body handler) final.

Declare Scope py_scope.
Delimit Scope py_scope with py.
Notation "c ;; k" := (bind c (fun _ => k))
  (at level 61, right associativity) : py_scope.

(** Observations on a trace. *)
Definition is_close (x : Entry) : bool :=
  match called x with browser_close => true | _ => false end.

Definition closes (tr : list Entry) : nat := List.length (filter is_close tr).

Definition captured (path : string) (x : Entry) : bool :=
  match called x, raised x with
  | screenshot p, None => String.eqb p path
  | _, _ => false
  end.

End Playwright.

Module VerifyHotkeys.

Import Playwright.
Local Open Scope py_scope.

Definition heading : Locator := get_by_role "heading" "Keyboard Shortcuts".
Definition palette : Locator := get_by_placeholder "Type a command or search...".

Definition setup : Py unit :=
  call (chromium_launch true) ;;
  call new_context ;;
  call new_page.

Definition body : Py unit :=
  call (goto "http://localhost:5173") ;;
  call (evaluate "() => localStorage.clear()") ;;
  call reload ;;
  call (expect_to_be_visible (get_by_text "Select Image Folder") (Some 30000%Z)) ;;
  call (keyboard_press "F1") ;;
  call (expect_to_be_visible heading None) ;;
  call (screenshot "jules-scratch/verification/hotkey_help_modal.png") ;;
  call (print "Hotkey Help modal opened successfully.") ;;
  call (keyboard_press "Escape") ;;
  call (expect_not_to_be_visible heading) ;;
  call (print "Hotkey Help modal closed successfully.") ;;
  call (keyboard_press "Control+K") ;;
  call (expect_to_be_visible palette None) ;;
  call (screenshot "jules-scratch/verification/command_palette.png") ;;
  call (print "Command Palette opened successfully.") ;;
  call (keyboard_press "Escape") ;;
  call (expect_not_to_be_visible palette) ;;
  call (print "Command Palette closed successfully.").

Definition error_png : string := "jules-scratch/verification/error.png".

Definition handler (e : Exn) : Py unit :=
  call (print ("An error occurred: " ++ str e)) ;;
  call (screenshot error_png).

Definition run_verification : Py unit :=
  setup ;;
  try_except_finally body handler (call browser_close).

End VerifyHotkeys.

Module VerifyHotkeysFix.

Import Playwright.
Local Open Scope py_scope.

Definition setup : Py unit :=
  call (chromium_launch true) ;;
  call new_context ;;
  call new_page.

(** The double quote character, for selectors that contain it. *)
Definition dquote : string := String (ascii_of_nat 34) EmptyString.

(** ['[data-testid="hotkey-help-modal"]'] *)
Definition modal_selector : string :=
  "[data-testid=" ++ dquote ++ "hotkey-help-modal" ++ dquote ++ "]".

Definition body : Py unit :=
  call (goto "http://localhost:5173") ;;
  call (expect_to_be_visible (locator "header") None) ;;
  call (keyboard_press "F1") ;;
  call (expect_to_be_visible (locator modal_selector) None) ;;
  call (screenshot "jules-scratch/verification/hotkey-help-visible.png").

Definition error_png : string := "jules-scratch/verification/error-hotkey-fix.png".

Definition handler (e : Exn) : Py unit :=
  call (print ("An error occurred: " ++ str e)) ;;
  call (screenshot error_png).

Definition run : Py unit :=
  setup ;;
  try_except_finally body handler (call browser_close).

End VerifyHotkeysFix.

(** Vocabulary of the statements about the two scripts. *)
Module HotkeyRuns.

Import Playwright.
Local Open Scope py_scope.
Local Open Scope nat_scope.

(** Both scripts have this form: the setup calls, then the guarded body. *)
Definition guarded (body : Py unit) (png : string) : Py unit :=
  VerifyHotkeys.setup ;;
  try_except_finally
    body
    (fun e => call (print ("An error occurred: " ++ str e)) ;; call (screenshot png))
    (call browser_close).

(** The trace once the browser, the context and the page exist. *)
Definition setup_trace : list Entry :=
  [ mkEntry (chromium_launch true) None;
    mkEntry new_context None;
    mkEntry new_page None ].

Definition setup_succeeds (env : Env) : Prop :=
  env 0 = None /\ env 1 = None /\ env 2 = None.

(** The outcome of [browser.close()] as the call number [n] of a run. *)
Definition after_close {A : Type} (env : Env) (n : nat) (out : Outcome A) : Outcome A :=
  match env n with
  | None => out
  | Some e => Raised e
  end.

(** What a script of this form guarantees in an environment [env]. *)
Definition script_contract (script body : Py unit) (png : string) (env : Env) : Prop :=
  (* browser.close() is executed, as the last call of the run *)
  (exists tr,
      fst (script env []) = tr ++ [mkEntry browser_close (env (List.length tr))])
  (* all steps pass: close, and the script returns if close does *)
  /\ (forall tr1,
         body env setup_trace = (tr1, Returned tt) ->
         script env []
         = (tr1 ++ [mkEntry browser_close (env (List.length tr1))],
            after_close env (List.length tr1) (Returned tt)))
  (* a step raises an Exception and the handler's calls return: the error
     screenshot is taken before close and the exception is not propagated *)
  /\ (forall tr1 e,
         body env setup_trace = (tr1, Raised e) ->
         is_Exception e = true ->
         env (List.length tr1) = None ->
         env (S (List.length tr1)) = None ->
         script env []
         = (tr1 ++ [ mkEntry (print ("An error occurred: " ++ str e)) None;
                     mkEntry (screenshot png) None;
                     mkEntry browser_close (env (2 + List.length tr1)) ],
            after_close env (2 + List.length tr1) (Returned tt))).

(** An environment in which the development server is down: [page.goto],
    the fourth call, raises. *)
Definition server_down : Env :=
  fun n => if Nat.eqb n 3 then Some (PlaywrightError "net::ERR_CONNECTION_REFUSED")
           else None.

(** An environment in which the browser dies during the first step: the
    step raises, and so does the screenshot of the handler (the sixth
    call). *)
Definition browser_crashed : Env :=
  fun n =>
    if Nat.eqb n 3 then Some (PlaywrightError "Page crashed")
    else if Nat.eqb n 5 then Some (PlaywrightError "Target closed")
    else None.

(** An environment in which [browser.new_context()], the second call,
    raises. *)
Definition context_refused : Env :=
  fun n => if Nat.eqb n 1 then Some (PlaywrightError "Browser closed") else None.

(** [except Exception] does not catch a [KeyboardInterrupt]: close runs, no
    screenshot is taken, the interrupt propagates. *)
Definition interrupted : Env :=
  fun n => if Nat.eqb n 6 then Some KeyboardInterrupt else None.

End HotkeyRuns.

(* ------------------------------------------------------------------ *)
(** ** Straight-line scripts *)

(** The computations of module [Playwright], for any type of calls [C] and
    of trace entries [E]: used for the calls of verify_progressive_loading.py,
    which the hotkey scripts do not make, and to speak of a script as the
    list of its calls. *)
Module Script.

Import Playwright.

Section Generic.

Variables C E : Type.
Variable entry : C -> option Exn -> E.

Definition Py (A : Type) : Type := Env -> list E -> list E * Outcome A.

Definition ret {A : Type} (a : A) : Py A := fun _ tr => (tr, Returned a).

Definition bind {A B : Type} (c : Py A) (k : A -> Py B) : Py B :=
  fun env tr =>
    match c env tr with
    | (tr', Returned a) => k a env tr'
    | (tr', Raised e) => (tr', Raised e)
    end.

Definition call (c : C) : Py unit :=
  fun env tr =>
    match env (List.length tr) with
    | None => (tr ++ [entry c None], Returned tt)
    | Some e => (tr ++ [entry c (Some e)], Raised e)
    end.

(** The calls [cs], one after the other. *)
Fixpoint steps (cs : list C) : Py unit :=
  match cs with
  | [] => ret tt
  | c :: rest =>
      match rest with
      | [] => call c
      | _ :: _ => bind (call c) (fun _ => steps rest)
      end
  end.

(** The entries of calls that returned. *)
Definition returned (cs : list C) : list E := map (fun c => entry c None) cs.

(** A run of [cs] from trace [tr] that stops at its first raising call:
    every call returned and the run returns, or the calls before number [j]
    returned, call [j] raised [e], no later call was made and [e]
    propagates. *)
Definition stops_at_first_failure
  (cs : list C) (env : Env) (tr : list E) (out : list E * Outcome unit) : Prop :=
  ((forall i, (i < List.length cs)%nat -> env (List.length tr + i)%nat = None)
   /\ out = (tr ++ returned cs, Returned tt))
  \/ (exists j c e,
         nth_error cs j = Some c
         /\ (forall i, (i < j)%nat -> env (List.length tr + i)%nat = None)
         /\ env (List.length tr + j)%nat = Some e
         /\ out = (tr ++ returned (firstn j cs) ++ [entry c (Some e)], Raised e)).

End Generic.

Arguments ret {E A} a.
Arguments bind {E A B} c k.
Arguments call {C E} entry c.
Arguments steps {C E} entry cs.
Arguments returned {C E} entry cs.
Arguments stops_at_first_failure {C E} entry cs env tr out.

Declare Scope script_scope.
Delimit Scope script_scope with script.
Notation "c ;; k" := (bind c (fun _ => k))
  (at level 61, right associativity) : script_scope.

End Script.

(** verify_progressive_loading.py, function [main]. *)
Module VerifyProgressiveLoading.

Import Playwright Script.

(** What [page.add_init_script] is given: the script that installs the
    mocked [window.electronAPI] of module [Mock]. *)
Inductive InitScript : Type := mock_electronAPI.

(** The calls [main] makes (all awaited, one after the other). *)
Inductive Call : Type :=
| chromium_launch
| new_page
| add_init_script (script : InitScript)
| goto (url : string)
| wait_for_visible (l : Locator)
| click (l : Locator)
| expect_to_have_count (l : Locator) (count : nat) (timeout : Z)
| screenshot (path : string)
| browser_close.

Record Entry : Type := mkEntry {
  called : Call;
  raised : option Exn
}.

Definition Py (A : Type) : Type := Script.Py Entry A.

Definition call (c : Call) : Py unit := Script.call mkEntry c.

Local Open Scope script_scope.

Definition close_button : Locator := get_by_role "button" "Got it!".

Definition verification_png : string := "jules-scratch/verification/verification.png".

Definition main : Py unit :=
  call chromium_launch ;;
  call new_page ;;
  call (add_init_script mock_electronAPI) ;;
  call (goto "http://localhost:5173") ;;
  call (wait_for_visible close_button) ;;
  call (click close_button) ;;
  call (click (get_by_text "Add Folder")) ;;
  call (expect_to_have_count (locator ".image-card.placeholder") 50 2000) ;;
  call (screenshot verification_png) ;;
  call browser_close.

(** The calls of [main], in source order. *)
Definition main_calls : list Call :=
  [ chromium_launch;
    new_page;
    add_init_script mock_electronAPI;
    goto "http://localhost:5173";
    wait_for_visible close_button;
    click close_button;
    click (get_by_text "Add Folder");
    expect_to_have_count (locator ".image-card.placeholder") 50 2000;
    screenshot verification_png;
    browser_close ].

Definition is_close (x : Entry) : bool :=
  match called x with browser_close => true | _ => false end.

Definition closes (tr : list Entry) : nat := List.length (filter is_close tr).

Definition captured (path : string) (x : Entry) : bool :=
  match called x, raised x with
  | screenshot p, None => String.eqb p path
  | _, _ => false
  end.

End VerifyProgressiveLoading.

(** The bodies of the two hotkey scripts as lists of calls. *)
Module HotkeySteps.

Import Playwright.

(** verify_hotkeys.py, lines 9-38, in source order. *)
Definition verify_hotkeys_calls : list Call :=
  [ goto "http://localhost:5173";
    evaluate "() => localStorage.clear()";
    reload;
    expect_to_be_visible (get_by_text "Select Image Folder") (Some 30000%Z);
    keyboard_press "F1";
    expect_to_be_visible VerifyHotkeys.heading None;
    screenshot "jules-scratch/verification/hotkey_help_modal.png";
    print "Hotkey Help modal opened successfully.";
    keyboard_press "Escape";
    expect_not_to_be_visible VerifyHotkeys.heading;
    print "Hotkey Help modal closed successfully.";
    keyboard_press "Control+K";
    expect_to_be_visible VerifyHotkeys.palette None;
    screenshot "jules-scratch/verification/command_palette.png";
    print "Command Palette opened successfully.";
    keyboard_press "Escape";
    expect_not_to_be_visible VerifyHotkeys.palette;
    print "Command Palette closed successfully." ].

(** verify_hotkeys_fix.py, lines 9-21, in source order. *)
Definition verify_hotkeys_fix_calls : list Call :=
  [ goto "http://localhost:5173";
    expect_to_be_visible (locator "header") None;
    keyboard_press "F1";
    expect_to_be_visible (locator VerifyHotkeysFix.modal_selector) None;
    screenshot "jules-scratch/verification/hotkey-help-visible.png" ].

(** Whether a trace holds a call of [browser.close()], or an attempt at the
    screenshot [path]. *)
Definition attempts (c : Call) (tr : list Entry) : Prop :=
  In c (map called tr).

(** How a run of a hotkey script ended, given the trace [tr1] and the
    outcome [out] of its body: normally exactly when the body passed and
    [browser.close()] returned, or the body raised an [Exception] and the
    handler's two calls and [browser.close()] returned. *)
Definition ends_normally (env : Env) (tr1 : list Entry) (out : Outcome unit) : Prop :=
  match out with
  | Returned _ => env (List.length tr1) = None
  | Raised e =>
      is_Exception e = true
      /\ env (List.length tr1) = None
      /\ env (S (List.length tr1)) = None
      /\ env (S (S (List.length tr1))) = None
  end.

Definition is_close_call (c : Call) : bool :=
  match c with browser_close => true | _ => false end.

(** What the [except] clause adds to the trace [tr1] of a body that ended
    with [out], and the outcome after it. *)
Definition handler_part (png : string) (env : Env) (tr1 : list Entry)
           (out : Outcome unit) : list Entry * Outcome unit :=
  match out with
  | Returned _ => ([], Returned tt)
  | Raised e =>
      if is_Exception e then
        match env (List.length tr1) with
        | Some e1 =>
            ([mkEntry (print ("An error occurred: " ++ str e)) (Some e1)], Raised e1)
        | None =>
            match env (S (List.length tr1)) with
            | Some e2 =>
                ([mkEntry (print ("An error occurred: " ++ str e)) None;
                  mkEntry (screenshot png) (Some e2)], Raised e2)
            | None =>
                ([mkEntry (print ("An error occurred: " ++ str e)) None;
                  mkEntry (screenshot png) None], Returned tt)
            end
        end
      else ([], Raised e)
  end.

(** [browser.close()] is called once when the setup succeeded, and not at
    all, the exception of the setup propagating, when it did not. *)
Definition closes_once (script : Py unit) (env : Env) : Prop :=
  (HotkeyRuns.setup_succeeds env -> closes (fst (script env [])) = 1%nat)
  /\ (~ HotkeyRuns.setup_succeeds env ->
      closes (fst (script env [])) = 0%nat
      /\ exists e, snd (script env []) = Raised e).

(** The error screenshot is attempted exactly when the body raised an
    [Exception] and the message of the handler was printed. *)
Definition error_screenshot_iff
  (script body : Py unit) (png : string) (env : Env) : Prop :=
  attempts (screenshot png) (fst (script env []))
  <-> (HotkeyRuns.setup_succeeds env
       /\ exists tr1 e,
           body env HotkeyRuns.setup_trace = (tr1, Raised e)
           /\ is_Exception e = true
           /\ env (List.length tr1) = None).

(** The script returns normally exactly when the setup succeeded and the
    run [ends_normally]. *)
Definition returns_iff (script body : Py unit) (env : Env) : Prop :=
  snd (script env []) = Returned tt
  <-> (HotkeyRuns.setup_succeeds env
       /\ ends_normally env (fst (body env HotkeyRuns.setup_trace))
                        (snd (body env HotkeyRuns.setup_trace))).

End HotkeySteps.

(* ------------------------------------------------------------------ *)
(** ** Further observations on the page *)

Module Observe.

Import Mock.

(** A tally over a list of events: the sum of a weight per event. *)
Definition weigh (f : CustomEvent -> nat) (evs : list CustomEvent) : nat :=
  list_sum (map f evs).

(** How many batch events, and how many terminal events, of [d]. *)
Definition batches_for (d : DirectoryId) (evs : list CustomEvent) : nat :=
  List.length (filter is_batch (events_for d evs)).

Definition terminals_for (d : DirectoryId) (evs : list CustomEvent) : nat :=
  List.length (filter is_terminal (events_for d evs)).

(** The shapes of the two detail objects. *)
Definition is_batch_detail (x : Detail) : bool :=
  match x with BatchDetail _ _ => true | CompleteDetail _ _ => false end.


(** How many times a callback is invoked by a list of deliveries. *)
Definition invocations (cb : Callback) (ds : list Delivery) : nat :=
  List.length (filter (fun dl => Nat.eqb (to_callback dl) cb) ds).

(** A detail fits an event type: a batch event carries [{directoryId, files}]
    with 50 files, a completion event [{directoryId, total}] with total
    100. *)
Definition payload_fits (ty : string) (x : Detail) : Prop :=
  match x with
  | BatchDetail _ files => ty = batch_event /\ List.length files = 50%nat
  | CompleteDetail _ total => ty = complete_event /\ total = 100
  end.

(** An event whose detail has the shape its type announces. *)
Definition well_typed (ev : CustomEvent) : Prop :=
  payload_fits (type ev) (detail ev).

(** A handler subscribed through [sub], after any program [ops0], is only
    ever called, whatever the page does next ([ops1]), with details that fit
    the event type [ty]. *)
Definition typed_delivery
  (ty : string) (sub : Callback -> Eff (option Unsubscribe)) : Prop :=
  forall (ops0 ops1 : list Op) (t0 : Z) (cb : Callback),
  exists u,
    result (sub cb) (run ops0 (initial_window t0)) = Some u
    /\ Forall (fun dl => to_callback dl = cb /\ payload_fits ty (payload dl))
              (received_by (handler_id (unsub_handler u))
                 (run ops1 (exec (sub cb) (run ops0 (initial_window t0))))).

(** The same callback subscribed twice through [sub]: two function objects,
    two calls of the callback per event of type [ty], one call once either
    subscription is unsubscribed. *)
Definition double_subscription
  (ty : string) (sub : Callback -> Eff (option Unsubscribe)) : Prop :=
  forall (ops0 : list Op) (t0 : Z) (cb : Callback),
  exists u1 u2,
    result (sub cb) (run ops0 (initial_window t0)) = Some u1
    /\ result (sub cb) (exec (sub cb) (run ops0 (initial_window t0))) = Some u2
    /\ handler_id (unsub_handler u1) <> handler_id (unsub_handler u2)
    /\ (forall n ev,
           type ev = ty ->
           invocations cb
             (deliveries_of n ev
                (listeners (exec (sub cb) (exec (sub cb) (run ops0 (initial_window t0))))))
           = (invocations cb
                (deliveries_of n ev (listeners (run ops0 (initial_window t0))))
              + 2)%nat)
    /\ (forall n ev u,
           type ev = ty -> u = u1 \/ u = u2 ->
           invocations cb
             (deliveries_of n ev
                (listeners
                   (exec (call_unsubscribe u)
                      (exec (sub cb) (exec (sub cb) (run ops0 (initial_window t0)))))))
           = (invocations cb
                (deliveries_of n ev (listeners (run ops0 (initial_window t0))))
              + 1)%nat).

(** Subscribing and calling the returned function at once restores the
    page, up to the identity of the next function object. *)
Definition subscription_round_trip
  (sub : Callback -> Eff (option Unsubscribe)) : Prop :=
  forall (ops0 : list Op) (t0 : Z) (cb : Callback),
  exists u,
    result (sub cb) (run ops0 (initial_window t0)) = Some u
    /\ exec (call_unsubscribe u) (exec (sub cb) (run ops0 (initial_window t0)))
       = set_next_handler (S (next_handler (run ops0 (initial_window t0))))
                          (run ops0 (initial_window t0)).

(** The calls of the mock that do nothing to the page. *)
Definition inert (o : Op) : bool :=
  match o with
  | CallShowDirectoryDialog
  | CallOnDirectoryScanError _
  | CallUpdateAllowedPaths _
  | CallOnMenuAddFolder _
  | CallGetTheme => true
  | _ => false
  end.


(** Every listener with the identity [h] is the handler that wraps [cb],
    registered for [ty]. *)
Definition wraps (h : nat) (ty : string) (cb : Callback) (w : Window) : Prop :=
  (h < next_handler w)%nat
  /\ Forall (fun l => handler_id (handler l) = h ->
                      l = mkListener ty (mkHandler h cb))
            (listeners w).

(** No function object is on the listener list twice. *)
Definition listed_once (w : Window) : Prop :=
  forall h,
    (List.length (filter (fun l => Nat.eqb (handler_id (handler l)) h) (listeners w))
     <= 1)%nat.

(** The directoryId a detail object carries. *)
Definition detail_directory (x : Detail) : DirectoryId :=
  match x with
  | BatchDetail d _ => d
  | CompleteDetail d _ => d
  end.

Definition details_for (d : DirectoryId) (xs : list Detail) : list Detail :=
  filter (fun x => String.eqb (detail_directory x) d) xs.

(** What handler [h] has been handed for directoryId [d], in order. *)
Definition handed (h : nat) (d : DirectoryId) (w : Window) : list Detail :=
  details_for d (map payload (received_by h w)).

(** A page that scans the same directoryId again after its first scan has
    completed. *)
Definition reused_id : list Op :=
  [ CallStreamDirectoryFiles (mkArgs "dir-1"%string "/__tests__/fixtures/images"%string);
    Turn; Turn; Turn;
    CallStreamDirectoryFiles (mkArgs "dir-1"%string "/__tests__/fixtures/images"%string);
    Turn; Turn; Turn ].

(** What one call schedules, whatever the page: two batches, then the
    completion whose total is the sum of the lengths of these batches. *)
Definition call_total_is_sum (a : StreamArgs) (w : Window) : Prop :=
  In (mkEvent complete_event (CompleteDetail (arg_directoryId a) 100))
     (map task (scheduled_by (streamDirectoryFiles a) w))
  /\ (forall ev T,
         In ev (map task (scheduled_by (streamDirectoryFiles a) w)) ->
         detail ev = CompleteDetail (arg_directoryId a) T ->
         T = Z.of_nat (batch_file_total (arg_directoryId a)
                         (map task (scheduled_by (streamDirectoryFiles a) w)))).


(** A handler subscribed by the call [o_sub] of a program
    [ops0 ++ o_sub :: ops1], before any scan of [d], and not unsubscribed
    afterwards, has been handed exactly [xs] for [d] once the timers have
    fired. *)
Definition subscriber_is_handed
  (o_sub : Op) (d : DirectoryId) (ops : list Op) (t0 : Z) (xs : list Detail) : Prop :=
  forall ops0 ops1,
    ops = ops0 ++ o_sub :: ops1 ->
    scans_of d ops0 = 0%nat ->
    keeps_registered (next_handler (run ops0 (initial_window t0))) ops1 = true ->
    handed (next_handler (run ops0 (initial_window t0))) d
           (drain (run ops (initial_window t0)))
    = xs.

End Observe.

(* ------------------------------------------------------------------ *)
(** ** Facts about the page *)

Import Mock.

Section TimerQueue.

Lemma insert_timer_In (t x : Timer) (q : list Timer) :
  In x (insert_timer t q) <-> x = t \/ In x q.
Proof.
  induction q as [|y q IH]; simpl.
  - intuition congruence.
  - destruct (due y <=? due t); simpl; rewrite ?IH; intuition congruence.
Qed.

Lemma insert_timer_sorted (t : Timer) (q : list Timer) :
  StronglySorted by_due q -> StronglySorted by_due (insert_timer t q).
Proof.
  induction q as [|y q IH]; simpl; intros Hs.
  - repeat constructor.
  - inversion Hs as [|? ? Hq Hy]; subst.
    destruct (due y <=? due t) eqn:E.
    + constructor; [now apply IH|].
      apply Forall_forall. intros x Hx. apply insert_timer_In in Hx.
      destruct Hx as [->|Hx].
      * apply Z.leb_le in E. exact E.
      * rewrite Forall_forall in Hy. now apply Hy.
    + apply Z.leb_gt in E.
      constructor; [exact Hs|].
      constructor; [unfold by_due; lia|].
      rewrite Forall_forall in Hy |- *. intros x Hx.
      specialize (Hy x Hx). unfold by_due in *. lia.
Qed.

Lemma insert_timer_length (t : Timer) (q : list Timer) :
  List.length (insert_timer t q) = S (List.length q).
Proof.
  induction q as [|y q IH]; simpl; [reflexivity|].
  destruct (due y <=? due t); simpl; congruence.
Qed.

Variable P : Timer -> bool.

(** A timer outside a selection does not disturb the selection. *)
Lemma filter_insert_other (t : Timer) (q : list Timer) :
  P t = false -> filter P (insert_timer t q) = filter P q.
Proof.
  intros Ht. induction q as [|y q IH]; simpl.
  - now rewrite Ht.
  - destruct (due y <=? due t); simpl.
    + destruct (P y); now rewrite IH.
    + now rewrite Ht.
Qed.

(** A selected timer that is due no earlier than the selected timers of the
    queue fires after all of them. *)
Lemma filter_insert_last (t : Timer) (q : list Timer) :
  StronglySorted by_due q ->
  P t = true ->
  Forall (fun x => due x <= due t) (filter P q) ->
  filter P (insert_timer t q) = filter P q ++ [t].
Proof.
  intros Hs Ht. induction q as [|y q IH]; simpl; intros Hle.
  - now rewrite Ht.
  - inversion Hs as [|? ? Hq Hy]; subst.
    destruct (due y <=? due t) eqn:E; simpl.
    + destruct (P y) eqn:Py; simpl.
      * f_equal. apply IH; [exact Hq|]. now inversion Hle.
      * now apply IH.
    + apply Z.leb_gt in E. rewrite Ht.
      assert (Hnone : filter P q = [] /\ P y = false).
      { destruct (P y) eqn:Py.
        - inversion Hle; subst. lia.
        - split; [|reflexivity].
          destruct (filter P q) as [|z l] eqn:F; [reflexivity|].
          assert (Hz : In z (filter P q)) by (rewrite F; now left).
          apply filter_In in Hz. destruct Hz as [Hz _].
          rewrite Forall_forall in Hy. specialize (Hy z Hz).
          inversion Hle; subst. unfold by_due in Hy. lia. }
      destruct Hnone as [-> ->]. reflexivity.
Qed.

End TimerQueue.

Section Steps.

Lemma run_app (ops1 ops2 : list Op) (w : Window) :
  run (ops1 ++ ops2) w = run ops2 (run ops1 w).
Proof. apply fold_left_app. Qed.

Lemma run_snoc (ops : list Op) (o : Op) (w : Window) :
  run (ops ++ [o]) w = step o (run ops w).
Proof. now rewrite run_app. Qed.

Lemma events_for_app (d : DirectoryId) (l1 l2 : list CustomEvent) :
  events_for d (l1 ++ l2) = events_for d l1 ++ events_for d l2.
Proof. apply filter_app. Qed.

Lemma events_for_tasks (d : DirectoryId) (q : list Timer) :
  events_for d (map task q) = map task (timers_for d q).
Proof.
  induction q as [|t q IH]; simpl; [reflexivity|].
  destruct (is_for d (task t)); simpl; now rewrite IH.
Qed.

(** [Date.now()] is read once per file entry; within one call all the
    readings agree. *)
Lemma make_files_at (first : nat) (w : Window) :
  make_files first w = (files_at first (now w), w).
Proof. reflexivity. Qed.

(** What [streamDirectoryFiles] does to the page: three timers, nothing
    else. *)
Lemma stream_exec (a : StreamArgs) (w : Window) :
  exec (streamDirectoryFiles a) w
  = set_timers (insert_timers (scan_timers (arg_directoryId a) (now w)) (timers w)) w.
Proof. reflexivity. Qed.

Lemma stream_result (a : StreamArgs) (w : Window) :
  result (streamDirectoryFiles a) w
  = Js.Resolved (Js.Obj [("success"%string, Js.Bool true)]).
Proof. reflexivity. Qed.

Lemma step_timers (o : Op) (w : Window) :
  timers (step o w)
  = match o with
    | CallStreamDirectoryFiles a =>
        insert_timers (scan_timers (arg_directoryId a) (now w)) (timers w)
    | Turn => tl (timers w)
    | _ => timers w
    end.
Proof.
  destruct o; try reflexivity.
  - cbv [step exec onDirectoryScanBatch bind new_handler addEventListener ret].
    simpl. now destruct (existsb _ _).
  - cbv [step exec onDirectoryScanComplete bind new_handler addEventListener ret].
    simpl. now destruct (existsb _ _).
  - cbv [step exec run_next_timer].
    destruct (timers w) as [|t q] eqn:E; simpl; [exact E|reflexivity].
Qed.

Lemma step_dispatched (o : Op) (w : Window) :
  dispatched (step o w)
  = match o with
    | Turn => dispatched w ++ map task (firstn 1 (timers w))
    | _ => dispatched w
    end.
Proof.
  destruct o; try reflexivity.
  - cbv [step exec onDirectoryScanBatch bind new_handler addEventListener ret].
    simpl. now destruct (existsb _ _).
  - cbv [step exec onDirectoryScanComplete bind new_handler addEventListener ret].
    simpl. now destruct (existsb _ _).
  - cbv [step exec run_next_timer]. destruct (timers w); simpl.
    + now rewrite app_nil_r.
    + reflexivity.
Qed.

Lemma scan_timers_sorted (d : DirectoryId) (t : Z) (q : list Timer) :
  StronglySorted by_due q ->
  StronglySorted by_due (insert_timers (scan_timers d t) q).
Proof. intros Hq. simpl. now repeat apply insert_timer_sorted. Qed.

Lemma tl_sorted (q : list Timer) :
  StronglySorted by_due q -> StronglySorted by_due (tl q).
Proof.
  intros Hq. destruct q as [|t q]; simpl; [exact Hq|].
  inversion Hq; subst; assumption.
Qed.

(** The queue stays in firing order whatever the page does. *)
Lemma step_sorted (o : Op) (w : Window) :
  StronglySorted by_due (timers w) -> StronglySorted by_due (timers (step o w)).
Proof.
  intros Hs. rewrite step_timers.
  destruct o; auto using scan_timers_sorted, tl_sorted.
Qed.

Lemma run_sorted (ops : list Op) (w : Window) :
  StronglySorted by_due (timers w) -> StronglySorted by_due (timers (run ops w)).
Proof.
  revert w. induction ops as [|o ops IH]; simpl; intros w Hs; [exact Hs|].
  apply IH. now apply step_sorted.
Qed.

(** A call for another directoryId leaves the timers of [d] as they are. *)
Lemma scan_timers_other (d d' : DirectoryId) (t : Z) (q : list Timer) :
  String.eqb d' d = false ->
  timers_for d (insert_timers (scan_timers d' t) q) = timers_for d q.
Proof.
  intros Hd. unfold timers_for. simpl.
  rewrite !filter_insert_other; try reflexivity; unfold is_for; simpl; exact Hd.
Qed.

(** The first call for [d] leaves exactly its three timers, in order. *)
Lemma scan_timers_first (d : DirectoryId) (t : Z) (q : list Timer) :
  StronglySorted by_due q ->
  timers_for d q = [] ->
  timers_for d (insert_timers (scan_timers d t) q) = scan_timers d t.
Proof.
  intros Hs Hq. unfold timers_for in *. simpl.
  assert (Hd : forall ev, directory_of ev = d -> is_for d ev = true).
  { intros ev <-. unfold is_for. apply String.eqb_refl. }
  rewrite filter_insert_last.
  - rewrite filter_insert_last.
    + rewrite filter_insert_last.
      * now rewrite Hq.
      * exact Hs.
      * now apply Hd.
      * rewrite Hq. constructor.
    + now apply insert_timer_sorted.
    + now apply Hd.
    + rewrite filter_insert_last; [|exact Hs|now apply Hd|rewrite Hq; constructor].
      rewrite Hq. simpl. repeat constructor; simpl; lia.
  - now repeat apply insert_timer_sorted.
  - now apply Hd.
  - rewrite filter_insert_last.
    + rewrite filter_insert_last; [|exact Hs|now apply Hd|rewrite Hq; constructor].
      rewrite Hq. simpl. repeat constructor; simpl; lia.
    + now apply insert_timer_sorted.
    + now apply Hd.
    + rewrite filter_insert_last; [|exact Hs|now apply Hd|rewrite Hq; constructor].
      rewrite Hq. simpl. repeat constructor; simpl; lia.
Qed.

Lemma scans_of_snoc (d : DirectoryId) (ops : list Op) (o : Op) :
  scans_of d (ops ++ [o])
  = (scans_of d ops + (if is_scan_of d o then 1 else 0))%nat.
Proof.
  unfold scans_of. rewrite filter_app, length_app. simpl.
  now destruct (is_scan_of d o).
Qed.

End Steps.

Section Scans.

Lemma run_timers_as_run (n : nat) (w : Window) :
  run_timers n w = run (repeat Turn n) w.
Proof. revert w. induction n as [|n IH]; simpl; intros w; [reflexivity|apply IH]. Qed.

Lemma run_timers_dispatched (n : nat) (w : Window) :
  dispatched (run_timers n w) = dispatched w ++ map task (firstn n (timers w)).
Proof.
  revert w. induction n as [|n IH]; intros w; simpl.
  - now rewrite app_nil_r.
  - change (exec run_next_timer w) with (step Turn w).
    rewrite IH, step_dispatched, step_timers.
    destruct (timers w) as [|t q]; simpl.
    + now rewrite firstn_nil, !app_nil_r.
    + now rewrite <- app_assoc.
Qed.

Lemma run_timers_timers (n : nat) (w : Window) :
  timers (run_timers n w) = skipn n (timers w).
Proof.
  revert w. induction n as [|n IH]; intros w; simpl; [reflexivity|].
  change (exec run_next_timer w) with (step Turn w).
  rewrite IH, step_timers.
  destruct (timers w) as [|t q]; simpl; [apply skipn_nil|reflexivity].
Qed.

(** The event loop comes to rest: after [drain] no timer is pending, and
    every timer that was pending has fired, in queue order. *)
Lemma drain_timers (w : Window) : timers (drain w) = [].
Proof. unfold drain. rewrite run_timers_timers. apply skipn_all. Qed.

Lemma drain_dispatched (w : Window) :
  dispatched (drain w) = dispatched w ++ map task (timers w).
Proof. unfold drain. now rewrite run_timers_dispatched, firstn_all. Qed.

Lemma initial_sorted (t0 : Z) : StronglySorted by_due (timers (initial_window t0)).
Proof. constructor. Qed.

(** The events of [d] already dispatched, followed by those still pending in
    the queue, are the three events of its one call (none before the call). *)
Lemma scan_invariant (ops : list Op) (t0 : Z) (d : DirectoryId) :
  (scans_of d ops <= 1)%nat ->
  exists t,
    events_for d (dispatched (run ops (initial_window t0)))
    ++ map task (timers_for d (timers (run ops (initial_window t0))))
    = if Nat.eqb (scans_of d ops) 1 then scan_events d t else [].
Proof.
  induction ops as [|o ops IH] using rev_ind; intros Hn.
  - exists 0. reflexivity.
  - rewrite scans_of_snoc in Hn |- *. rewrite run_snoc.
    destruct IH as [t IH]; [lia|].
    pose proof (run_sorted ops _ (initial_sorted t0)) as Hs.
    set (w := run ops (initial_window t0)) in *.
    rewrite step_dispatched, step_timers.
    destruct o; simpl is_scan_of in *; rewrite ?Nat.add_0_r;
      try (exists t; exact IH).
    + (* streamDirectoryFiles *)
      destruct (String.eqb (arg_directoryId args) d) eqn:E.
      * apply String.eqb_eq in E. subst d.
        assert (H0 : scans_of (arg_directoryId args) ops = 0%nat) by lia.
        rewrite H0 in *. simpl in IH.
        apply app_eq_nil in IH. destruct IH as [Hd Hq].
        apply map_eq_nil in Hq.
        exists (now w). rewrite Hd, scan_timers_first by assumption.
        reflexivity.
      * rewrite scan_timers_other by exact E.
        rewrite Nat.add_0_r. exists t. exact IH.
    + (* one turn of the event loop *)
      exists t. rewrite <- IH.
      destruct (timers w) as [|x q]; simpl.
      * now rewrite !app_nil_r.
      * rewrite events_for_app. unfold timers_for. simpl.
        destruct (is_for d (task x)); simpl.
        -- now rewrite <- app_assoc.
        -- now rewrite app_nil_r.
Qed.

Lemma is_for_refl (d : DirectoryId) (ev : CustomEvent) :
  directory_of ev = d -> is_for d ev = true.
Proof. intros <-. apply String.eqb_refl. Qed.

(** A list that extends to [[a; b; c]] is one of its four prefixes. *)
Lemma prefix_of_three {A : Type} (l rest : list A) (a b c : A) :
  l ++ rest = [a; b; c] ->
  l = [] \/ l = [a] \/ l = [a; b] \/ l = [a; b; c].
Proof.
  destruct l as [|x1 [|x2 [|x3 [|x4 l]]]]; simpl; intros H; auto.
  - injection H as -> _. auto.
  - injection H as -> -> _. auto.
  - injection H as -> -> -> _. auto.
  - discriminate H.
Qed.


Lemma events_for_idem (d : DirectoryId) (l : list CustomEvent) :
  events_for d (events_for d l) = events_for d l.
Proof.
  unfold events_for. induction l as [|x l IH]; simpl; [reflexivity|].
  destruct (is_for d x) eqn:E; simpl; rewrite ?E, IH; reflexivity.
Qed.

(** After its single call and a drained event loop, the events of [d] are
    the two batches and the completion. *)
Lemma drained_scan (ops : list Op) (t0 : Z) (d : DirectoryId) :
  scans_of d ops = 1%nat ->
  exists t,
    events_for d (dispatched (drain (run ops (initial_window t0))))
    = scan_events d t.
Proof.
  intros Hn. destruct (scan_invariant ops t0 d) as [t H]; [lia|].
  rewrite Hn in H. simpl in H. exists t.
  now rewrite drain_dispatched, events_for_app, events_for_tasks.
Qed.

End Scans.

Section ScanTheorems.

(** At any moment of a run, the events of a directoryId scanned once are a
    prefix of its two batches and its completion. *)
Lemma scan_prefix (ops : list Op) (t0 : Z) (d : DirectoryId) :
  scans_of d ops = 1%nat ->
  exists t rest,
    events_for d (dispatched (run ops (initial_window t0))) ++ rest
    = scan_events d t.
Proof.
  intros Hn. destruct (scan_invariant ops t0 d) as [t H]; [lia|].
  rewrite Hn in H. simpl in H. eauto.
Qed.

(** In a run in which [streamDirectoryFiles] is called once for [d]: whenever
    a completion of [d] has been dispatched its total is the sum of the
    lengths of the batches dispatched for [d]; once the timers have fired
    the completion with total 100 stands after two batches of 50 files. *)
Lemma total_is_sum_when_scanned_once (ops : list Op) (t0 : Z) (d : DirectoryId) :
  scans_of d ops = 1%nat ->
  (forall ev T,
      In ev (dispatched (run ops (initial_window t0))) ->
      detail ev = CompleteDetail d T ->
      T = Z.of_nat (batch_file_total d (dispatched (run ops (initial_window t0)))))
  /\ In (mkEvent complete_event (CompleteDetail d 100))
        (dispatched (drain (run ops (initial_window t0))))
  /\ map file_count
         (filter is_batch
                 (events_for d (dispatched (drain (run ops (initial_window t0))))))
     = [50; 50]%nat.
Proof.
  intros Hn. split; [|split].
  - intros ev T Hin Hd.
    destruct (scan_prefix ops t0 d Hn) as (t & rest & Hp).
    assert (Hev : In ev (events_for d (dispatched (run ops (initial_window t0))))).
    { apply filter_In. split; [exact Hin|].
      apply is_for_refl. unfold directory_of. now rewrite Hd. }
    unfold batch_file_total.
    destruct (prefix_of_three _ _ _ _ _ Hp) as [H|[H|[H|H]]];
      rewrite H in Hev |- *; simpl in Hev.
    + contradiction.
    + destruct Hev as [<-|[]]. discriminate Hd.
    + destruct Hev as [<-|[<-|[]]]; discriminate Hd.
    + destruct Hev as [<-|[<-|[<-|[]]]]; try discriminate Hd.
      simpl in Hd. injection Hd as <-. reflexivity.
  - destruct (drained_scan ops t0 d Hn) as [t H].
    assert (Hin : In (mkEvent complete_event (CompleteDetail d 100))
                     (events_for d (dispatched (drain (run ops (initial_window t0)))))).
    { rewrite H. simpl. auto. }
    apply filter_In in Hin. tauto.
  - destruct (drained_scan ops t0 d Hn) as [t H]. rewrite H. reflexivity.
Qed.


End ScanTheorems.

Section Listeners.

Local Open Scope nat_scope.

Lemma step_listeners (o : Op) (w : Window) :
  listeners (step o w)
  = match o with
    | CallOnDirectoryScanBatch cb =>
        add_listener batch_event (fresh_handler cb w) (listeners w)
    | CallOnDirectoryScanComplete cb =>
        add_listener complete_event (fresh_handler cb w) (listeners w)
    | CallUnsubscribe u => remove_listener u (listeners w)
    | _ => listeners w
    end.
Proof.
  destruct o; try reflexivity.
  - cbv [step exec onDirectoryScanBatch bind new_handler addEventListener ret
         add_listener fresh_handler].
    simpl. now destruct (existsb _ _).
  - cbv [step exec onDirectoryScanComplete bind new_handler addEventListener ret
         add_listener fresh_handler].
    simpl. now destruct (existsb _ _).
  - cbv [step exec run_next_timer]. now destruct (timers w).
Qed.

Lemma step_next_handler (o : Op) (w : Window) :
  next_handler (step o w)
  = match o with
    | CallOnDirectoryScanBatch _ | CallOnDirectoryScanComplete _ =>
        S (next_handler w)
    | _ => next_handler w
    end.
Proof.
  destruct o; try reflexivity.
  - cbv [step exec onDirectoryScanBatch bind new_handler addEventListener ret].
    simpl. now destruct (existsb _ _).
  - cbv [step exec onDirectoryScanComplete bind new_handler addEventListener ret].
    simpl. now destruct (existsb _ _).
  - cbv [step exec run_next_timer]. now destruct (timers w).
Qed.

Lemma step_delivered (o : Op) (w : Window) :
  delivered (step o w)
  = match o with
    | Turn =>
        match timers w with
        | [] => delivered w
        | t :: _ =>
            delivered w
            ++ deliveries_of (List.length (dispatched w)) (task t) (listeners w)
        end
    | _ => delivered w
    end.
Proof.
  destruct o; try reflexivity.
  - cbv [step exec onDirectoryScanBatch bind new_handler addEventListener ret].
    simpl. now destruct (existsb _ _).
  - cbv [step exec onDirectoryScanComplete bind new_handler addEventListener ret].
    simpl. now destruct (existsb _ _).
  - cbv [step exec run_next_timer]. now destruct (timers w).
Qed.

Lemma deliveries_of_In (n : nat) (ev : CustomEvent) (ls : list Listener) (dl : Delivery) :
  In dl (deliveries_of n ev ls)
  <-> exists l, In l ls /\ listens_to l = type ev
                /\ dl = mkDelivery (handler_id (handler l)) (callback (handler l))
                                   n (detail ev).
Proof.
  unfold deliveries_of. rewrite in_map_iff. split.
  - intros (l & <- & Hl). apply filter_In in Hl. destruct Hl as [Hl E].
    apply String.eqb_eq in E. eauto.
  - intros (l & Hl & E & ->). exists l. split; [reflexivity|].
    apply filter_In. split; [exact Hl|]. now apply String.eqb_eq.
Qed.

Lemma initial_well_formed (t0 : Z) : well_formed (initial_window t0).
Proof. repeat split; constructor. Qed.

Lemma step_well_formed (o : Op) (w : Window) :
  well_formed w -> well_formed (step o w).
Proof.
  intros (Hl & Hd & He). unfold well_formed.
  rewrite step_listeners, step_next_handler, step_delivered, step_dispatched.
  rewrite Forall_forall in Hl, Hd, He.
  destruct o; rewrite ?Forall_forall; repeat split; intros x Hx; auto.
  - unfold add_listener in Hx. destruct (existsb _ _).
    + specialize (Hl x Hx). lia.
    + apply in_app_iff in Hx. destruct Hx as [Hx|[<-|[]]]; simpl.
      * specialize (Hl x Hx). lia.
      * lia.
  - specialize (Hd x Hx). lia.
  - unfold add_listener in Hx. destruct (existsb _ _).
    + specialize (Hl x Hx). lia.
    + apply in_app_iff in Hx. destruct Hx as [Hx|[<-|[]]]; simpl.
      * specialize (Hl x Hx). lia.
      * lia.
  - specialize (Hd x Hx). lia.
  - apply filter_In in Hx. apply Hl. tauto.
  - destruct (timers w) as [|t q]; [auto|].
    apply in_app_iff in Hx. destruct Hx as [Hx|Hx]; [auto|].
    apply deliveries_of_In in Hx. destruct Hx as (l & Hin & _ & ->). simpl. auto.
  - destruct (timers w) as [|t q]; simpl; rewrite ?app_nil_r; [auto|].
    rewrite length_app. simpl.
    apply in_app_iff in Hx. destruct Hx as [Hx|Hx].
    + specialize (He x Hx). lia.
    + apply deliveries_of_In in Hx. destruct Hx as (l & _ & _ & ->). simpl. lia.
Qed.

Lemma run_well_formed (ops : list Op) (w : Window) :
  well_formed w -> well_formed (run ops w).
Proof.
  revert w. induction ops as [|o ops IH]; simpl; intros w Hw; [exact Hw|].
  apply IH. now apply step_well_formed.
Qed.

End Listeners.

Section Subscribers.

Local Open Scope nat_scope.
Local Open Scope eff_scope.

Lemma onDirectoryScanBatch_eq (cb : Callback) :
  onDirectoryScanBatch cb = subscription batch_event cb.
Proof. reflexivity. Qed.

Lemma onDirectoryScanComplete_eq (cb : Callback) :
  onDirectoryScanComplete cb = subscription complete_event cb.
Proof. reflexivity. Qed.

Lemma subscription_result (ty : string) (cb : Callback) (w : Window) :
  result (subscription ty cb) w = Some (mkUnsubscribe ty (fresh_handler cb w)).
Proof.
  cbv [result subscription bind new_handler addEventListener ret fresh_handler].
  simpl. now destruct (existsb _ _).
Qed.

Lemma subscription_fields (ty : string) (cb : Callback) (w : Window) :
  listeners (exec (subscription ty cb) w)
  = add_listener ty (fresh_handler cb w) (listeners w)
  /\ next_handler (exec (subscription ty cb) w) = S (next_handler w)
  /\ delivered (exec (subscription ty cb) w) = delivered w
  /\ dispatched (exec (subscription ty cb) w) = dispatched w
  /\ timers (exec (subscription ty cb) w) = timers w.
Proof.
  cbv [exec subscription bind new_handler addEventListener ret fresh_handler
       add_listener].
  simpl. now destruct (existsb _ _).
Qed.

Lemma subscription_registered (ty : string) (cb : Callback) (w : Window) :
  well_formed w ->
  registered_as (next_handler w) ty (exec (subscription ty cb) w).
Proof.
  intros (Hl & _). unfold registered_as.
  destruct (subscription_fields ty cb w) as (-> & -> & _).
  split; [lia|]. rewrite Forall_forall in *. intros l Hin Hid.
  unfold add_listener in Hin. destruct (existsb _ _).
  - specialize (Hl l Hin). lia.
  - apply in_app_iff in Hin. destruct Hin as [Hin|[<-|[]]].
    + specialize (Hl l Hin). lia.
    + reflexivity.
Qed.

Lemma step_registered_as (h : nat) (ty : string) (o : Op) (w : Window) :
  registered_as h ty w -> registered_as h ty (step o w).
Proof.
  intros (Hh & Hl). unfold registered_as.
  rewrite step_listeners, step_next_handler.
  rewrite Forall_forall in Hl.
  destruct o; (split; [lia|]); rewrite ?Forall_forall; auto.
  - intros l Hin Hid. unfold add_listener in Hin. destruct (existsb _ _); [auto|].
    apply in_app_iff in Hin. destruct Hin as [Hin|[<-|[]]]; [auto|].
    simpl in Hid. lia.
  - intros l Hin Hid. unfold add_listener in Hin. destruct (existsb _ _); [auto|].
    apply in_app_iff in Hin. destruct Hin as [Hin|[<-|[]]]; [auto|].
    simpl in Hid. lia.
  - intros l Hin. apply filter_In in Hin. apply Hl. tauto.
Qed.

Lemma run_registered_as (h : nat) (ty : string) (ops : list Op) (w : Window) :
  registered_as h ty w -> registered_as h ty (run ops w).
Proof.
  revert w. induction ops as [|o ops IH]; simpl; intros w Hw; [exact Hw|].
  apply IH. now apply step_registered_as.
Qed.

(** Calling the unsubscribe function of a handler removes it from the
    listener list altogether. *)
Lemma unsubscribe_unregisters (ty : string) (hd : Handler) (w : Window) :
  registered_as (handler_id hd) ty w ->
  unregistered (handler_id hd) (exec (call_unsubscribe (mkUnsubscribe ty hd)) w).
Proof.
  intros (Hh & Hl). split; [exact Hh|].
  change (listeners (exec (call_unsubscribe (mkUnsubscribe ty hd)) w))
    with (remove_listener (mkUnsubscribe ty hd) (listeners w)).
  rewrite Forall_forall in *. intros l Hin Hid.
  apply filter_In in Hin. destruct Hin as [Hin Hneq].
  specialize (Hl l Hin Hid). unfold same_listener in Hneq. simpl in Hneq.
  rewrite Hl, Hid, String.eqb_refl, Nat.eqb_refl in Hneq. discriminate Hneq.
Qed.

Lemma received_by_app (h : nat) (w : Window) (ds : list Delivery) :
  filter (fun dl => Nat.eqb (to_handler dl) h) (delivered w ++ ds)
  = received_by h w ++ filter (fun dl => Nat.eqb (to_handler dl) h) ds.
Proof. apply filter_app. Qed.

Lemma filter_none {A : Type} (f : A -> bool) (l : list A) :
  (forall x, In x l -> f x = false) -> filter f l = [].
Proof.
  induction l as [|x l IH]; simpl; intros H; [reflexivity|].
  rewrite (H x) by now left. apply IH. intros y Hy. apply H. now right.
Qed.

(** A handler that is not registered receives nothing, and stays
    unregistered: the page has no way to name it again. *)
Lemma step_unregistered (h : nat) (o : Op) (w : Window) :
  unregistered h w ->
  unregistered h (step o w) /\ received_by h (step o w) = received_by h w.
Proof.
  intros (Hh & Hl). unfold unregistered, received_by.
  rewrite step_listeners, step_next_handler, step_delivered.
  rewrite Forall_forall in Hl.
  destruct o; (split; [split; [lia|]|]); rewrite ?Forall_forall; auto.
  - intros l Hin. unfold add_listener in Hin. destruct (existsb _ _); [auto|].
    apply in_app_iff in Hin. destruct Hin as [Hin|[<-|[]]]; [auto|]. simpl. lia.
  - intros l Hin. unfold add_listener in Hin. destruct (existsb _ _); [auto|].
    apply in_app_iff in Hin. destruct Hin as [Hin|[<-|[]]]; [auto|]. simpl. lia.
  - intros l Hin. apply filter_In in Hin. apply Hl. tauto.
  - destruct (timers w) as [|t q]; [reflexivity|].
    rewrite received_by_app. unfold received_by.
    rewrite (filter_none _ (deliveries_of _ _ _)); [apply app_nil_r|].
    intros dl Hdl. apply deliveries_of_In in Hdl.
    destruct Hdl as (l & Hin & _ & ->). simpl.
    apply Nat.eqb_neq. now apply Hl.
Qed.

Lemma run_unregistered (h : nat) (ops : list Op) (w : Window) :
  unregistered h w ->
  unregistered h (run ops w) /\ received_by h (run ops w) = received_by h w.
Proof.
  revert w. induction ops as [|o ops IH]; simpl; intros w Hw; [auto|].
  destruct (step_unregistered h o w Hw) as [Hs He].
  destruct (IH _ Hs) as [Hr Hq]. split; [exact Hr|congruence].
Qed.

Lemma step_receives_from (n h : nat) (o : Op) (w : Window) :
  receives_from n h w -> receives_from n h (step o w).
Proof.
  intros (Hn & Hr). unfold receives_from, received_by in *.
  rewrite step_delivered, step_dispatched.
  destruct o; auto.
  destruct (timers w) as [|t q]; simpl; rewrite ?app_nil_r; [auto|].
  rewrite length_app, filter_app. simpl. split; [lia|].
  apply Forall_app. split; [exact Hr|].
  apply Forall_forall. intros dl Hdl. apply filter_In in Hdl.
  destruct Hdl as [Hdl _]. apply deliveries_of_In in Hdl.
  destruct Hdl as (l & _ & _ & ->). simpl. exact Hn.
Qed.

Lemma run_receives_from (n h : nat) (ops : list Op) (w : Window) :
  receives_from n h w -> receives_from n h (run ops w).
Proof.
  revert w. induction ops as [|o ops IH]; simpl; intros w Hw; [exact Hw|].
  apply IH. now apply step_receives_from.
Qed.

(** Nothing was ever delivered to a function object not yet created. *)
Lemma received_by_fresh (w : Window) :
  well_formed w -> received_by (next_handler w) w = [].
Proof.
  intros (_ & Hd & _). apply filter_none. intros dl Hdl.
  rewrite Forall_forall in Hd. specialize (Hd dl Hdl).
  apply Nat.eqb_neq. lia.
Qed.

Lemma filter_filter_implied {A : Type} (f g : A -> bool) (l : list A) :
  (forall x, f x = true -> g x = true) ->
  filter f (filter g l) = filter f l.
Proof.
  intros H. induction l as [|x l IH]; simpl; [reflexivity|].
  destruct (g x) eqn:G; simpl.
  - now rewrite IH.
  - destruct (f x) eqn:F; [|exact IH].
    rewrite (H x F) in G. discriminate G.
Qed.

Lemma filter_comm {A : Type} (f g : A -> bool) (l : list A) :
  filter f (filter g l) = filter g (filter f l).
Proof.
  induction l as [|x l IH]; simpl; [reflexivity|].
  destruct (f x) eqn:F, (g x) eqn:G; simpl; rewrite ?F, ?G, IH; reflexivity.
Qed.

Lemma subscription_listening (ty : string) (cb : Callback) (w : Window) :
  well_formed w ->
  listening (next_handler w) ty cb (exec (subscription ty cb) w).
Proof.
  intros (Hl & _). unfold listening.
  destruct (subscription_fields ty cb w) as (-> & -> & _).
  split; [lia|]. rewrite Forall_forall in Hl.
  assert (Hold : filter (fun l => handler_id (handler l) =? next_handler w)
                        (listeners w) = []).
  { apply filter_none. intros l Hin. apply Nat.eqb_neq.
    specialize (Hl l Hin). lia. }
  unfold add_listener. destruct (existsb _ _) eqn:E.
  - apply existsb_exists in E. destruct E as (l & Hin & Hsame).
    unfold same_listener in Hsame. apply andb_prop in Hsame.
    destruct Hsame as [_ Hid]. apply Nat.eqb_eq in Hid. simpl in Hid.
    specialize (Hl l Hin). lia.
  - rewrite filter_app, Hold. simpl. now rewrite Nat.eqb_refl.
Qed.

Lemma step_listening (h : nat) (ty : string) (cb : Callback) (o : Op) (w : Window) :
  listening h ty cb w -> unsubscribes h o = false ->
  listening h ty cb (step o w).
Proof.
  intros (Hh & Hl) Hu. unfold listening.
  rewrite step_listeners, step_next_handler.
  assert (Hadd : forall ty' cb',
             filter (fun l => handler_id (handler l) =? h)
                    (add_listener ty' (fresh_handler cb' w) (listeners w))
             = filter (fun l => handler_id (handler l) =? h) (listeners w)).
  { intros ty' cb'. unfold add_listener. destruct (existsb _ _); [reflexivity|].
    rewrite filter_app. simpl.
    replace (next_handler w =? h) with false by (symmetry; apply Nat.eqb_neq; lia).
    apply app_nil_r. }
  destruct o; (split; [lia|]); rewrite ?Hadd; try exact Hl.
  simpl in Hu. unfold remove_listener.
  rewrite filter_filter_implied; [exact Hl|].
  intros l Hid. apply Nat.eqb_eq in Hid. unfold same_listener.
  rewrite Hid, Nat.eqb_sym, Hu. now rewrite andb_false_r.
Qed.

(** What one step hands to a registered handler: the detail of the event
    dispatched in that step, if there is one and it has the handler's
    type. *)
Lemma step_received (h : nat) (ty : string) (cb : Callback) (o : Op) (w : Window) :
  listening h ty cb w ->
  exists emitted,
    dispatched (step o w) = dispatched w ++ emitted
    /\ map payload (received_by h (step o w))
       = map payload (received_by h w) ++ map detail (filter (has_type ty) emitted).
Proof.
  intros (Hh & Hl). unfold received_by.
  rewrite step_dispatched, step_delivered.
  destruct o; try (exists []; now rewrite !app_nil_r).
  destruct (timers w) as [|t q]; [exists []; now rewrite !app_nil_r|].
  exists [task t]. split; [reflexivity|].
  rewrite filter_app, map_app. f_equal.
  unfold deliveries_of.
  assert (Hmap : forall ls,
             filter (fun dl => to_handler dl =? h)
               (map (fun l => mkDelivery (handler_id (handler l))
                                         (callback (handler l))
                                         (List.length (dispatched w))
                                         (detail (task t))) ls)
             = map (fun l => mkDelivery (handler_id (handler l))
                                        (callback (handler l))
                                        (List.length (dispatched w))
                                        (detail (task t)))
                   (filter (fun l => handler_id (handler l) =? h) ls)).
  { induction ls as [|l ls IH]; simpl; [reflexivity|].
    destruct (handler_id (handler l) =? h); simpl; now rewrite IH. }
  rewrite Hmap, filter_comm, Hl. simpl. unfold has_type.
  rewrite String.eqb_sym. now destruct (String.eqb (type (task t)) ty).
Qed.

Lemma run_received (h : nat) (ty : string) (cb : Callback) (ops : list Op) (w : Window) :
  listening h ty cb w -> keeps_registered h ops = true ->
  exists emitted,
    dispatched (run ops w) = dispatched w ++ emitted
    /\ map payload (received_by h (run ops w))
       = map payload (received_by h w) ++ map detail (filter (has_type ty) emitted).
Proof.
  revert w. induction ops as [|o ops IH]; intros w Hl Hk.
  - exists []. now rewrite !app_nil_r.
  - simpl in Hk. apply andb_prop in Hk. destruct Hk as [Ho Hk].
    apply negb_true_iff in Ho.
    destruct (step_received h ty cb o w Hl) as (e1 & Hd1 & Hr1).
    destruct (IH (step o w) (step_listening h ty cb o w Hl Ho) Hk)
      as (e2 & Hd2 & Hr2).
    exists (e1 ++ e2). simpl. rewrite Hd2, Hr2, Hd1, Hr1.
    now rewrite filter_app, map_app, !app_assoc.
Qed.

Lemma subscription_delivers (ty : string) :
  delivers_while_registered ty (subscription ty).
Proof.
  intros ops0 ops1 t0 cb.
  pose proof (run_well_formed ops0 _ (initial_well_formed t0)) as Hw.
  set (w0 := run ops0 (initial_window t0)) in *.
  exists (mkUnsubscribe ty (fresh_handler cb w0)).
  split; [apply subscription_result|]. simpl. intros Hk.
  destruct (run_received _ ty cb ops1 _ (subscription_listening ty cb w0 Hw) Hk)
    as (emitted & Hd & Hr).
  exists emitted.
  destruct (subscription_fields ty cb w0) as (_ & _ & Hdel & Hdis & _).
  rewrite Hdis in Hd. split; [exact Hd|].
  rewrite Hr. unfold received_by at 1. rewrite Hdel.
  fold (received_by (next_handler w0) w0).
  now rewrite received_by_fresh.
Qed.

End Subscribers.

Section SubscriberTheorems.

Local Open Scope nat_scope.

(** What [dispatchEvent] delivers: one invocation per listener registered
    for the event's type at that moment, and nothing else. *)
Lemma dispatch_delivers (ev : CustomEvent) (w : Window) :
  delivered (exec (dispatchEvent ev) w)
  = delivered w ++ deliveries_of (List.length (dispatched w)) ev (listeners w).
Proof. reflexivity. Qed.

Lemma subscription_no_replay (ty : string) : no_replay (subscription ty).
Proof.
  intros ops0 ops1 t0 cb.
  pose proof (run_well_formed ops0 _ (initial_well_formed t0)) as Hw.
  set (w0 := run ops0 (initial_window t0)) in *.
  exists (mkUnsubscribe ty (fresh_handler cb w0)).
  destruct (subscription_fields ty cb w0) as (_ & _ & Hd & He & _).
  assert (H1 : received_by (next_handler w0) (exec (subscription ty cb) w0) = []).
  { unfold received_by. rewrite Hd. now apply received_by_fresh. }
  split; [apply subscription_result|]. simpl. split; [exact H1|].
  apply run_receives_from. split.
  - rewrite He. lia.
  - rewrite H1. constructor.
Qed.

(** C7: a handler subscribed (for batches or for completions) after some
    events were emitted receives none of them, neither when it registers nor
    later: there is no replay.  An emitted event is delivered once to each
    listener registered for its type at emission time, and to no one else;
    so a handler that stays registered is handed every event of its type
    emitted since it registered, in emission order. *)
Theorem no_retroactive_delivery :
  no_replay onDirectoryScanBatch
  /\ no_replay onDirectoryScanComplete
  /\ delivers_while_registered batch_event onDirectoryScanBatch
  /\ delivers_while_registered complete_event onDirectoryScanComplete
  /\ (forall (ev : CustomEvent) (w : Window),
         exists news,
           delivered (exec (dispatchEvent ev) w) = delivered w ++ news
           /\ (forall dl,
                  In dl news <->
                  exists l, In l (listeners w) /\ listens_to l = type ev
                            /\ dl = mkDelivery (handler_id (handler l))
                                               (callback (handler l))
                                               (List.length (dispatched w))
                                               (detail ev))).
Proof.
  split; [apply (subscription_no_replay batch_event)|].
  split; [apply (subscription_no_replay complete_event)|].
  split; [apply (subscription_delivers batch_event)|].
  split; [apply (subscription_delivers complete_event)|].
  intros ev w. eexists. split; [apply dispatch_delivers|].
  intros dl. apply deliveries_of_In.
Qed.

Lemma filter_idem {A : Type} (f : A -> bool) (l : list A) :
  filter f (filter f l) = filter f l.
Proof.
  induction l as [|x l IH]; simpl; [reflexivity|].
  destruct (f x) eqn:E; simpl; rewrite ?E, IH; reflexivity.
Qed.

Lemma unsubscribe_idempotent (u : Unsubscribe) (w : Window) :
  exec (call_unsubscribe u) (exec (call_unsubscribe u) w)
  = exec (call_unsubscribe u) w.
Proof.
  cbv [exec call_unsubscribe removeEventListener set_listeners]. simpl.
  now rewrite filter_idem.
Qed.

Lemma unsubscribe_repeated (u : Unsubscribe) (n : nat) (w : Window) :
  Nat.iter n (exec (call_unsubscribe u)) (exec (call_unsubscribe u) w)
  = exec (call_unsubscribe u) w.
Proof.
  induction n as [|n IH]; simpl; [reflexivity|].
  rewrite IH. apply unsubscribe_idempotent.
Qed.

Lemma subscription_contract (ty : string) : unsubscribe_contract (subscription ty).
Proof.
  intros ops0 t0 cb.
  pose proof (run_well_formed ops0 _ (initial_well_formed t0)) as Hw.
  set (w0 := run ops0 (initial_window t0)) in *.
  exists (mkUnsubscribe ty (fresh_handler cb w0)).
  split; [apply subscription_result|].
  split; [intros n w; apply unsubscribe_repeated|].
  intros ops1 w2 w3. simpl.
  assert (Hreg : registered_as (next_handler w0) ty w2).
  { apply run_registered_as. now apply subscription_registered. }
  assert (Hun : unregistered (next_handler w0) w3).
  { apply (unsubscribe_unregisters ty (fresh_handler cb w0)). exact Hreg. }
  assert (Hsame : received_by (next_handler w0) w3 = received_by (next_handler w0) w2)
    by reflexivity.
  split; [|split].
  - intros ev. unfold received_by at 1. rewrite dispatch_delivers, received_by_app.
    rewrite Hsame, filter_none; [apply app_nil_r|].
    intros dl Hdl. apply deliveries_of_In in Hdl.
    destruct Hdl as (l & Hin & _ & ->). simpl.
    destruct Hun as [_ Hun]. rewrite Forall_forall in Hun.
    apply Nat.eqb_neq. now apply Hun.
  - intros ops2. destruct (run_unregistered _ ops2 _ Hun) as [_ ->]. exact Hsame.
  - intros ev l Hin Hneq Hty.
    apply in_app_iff. right. apply deliveries_of_In.
    exists l. split; [|auto].
    apply filter_In. split; [exact Hin|].
    unfold same_listener. simpl.
    apply Nat.eqb_neq in Hneq. simpl in Hneq. rewrite Hneq.
    now rewrite andb_false_r.
Qed.

(** C4, amended: the batch and the completion subscriptions each return an
    unsubscribe function; calling it is idempotent and total (any number of
    repeated calls leaves the page as the first did), takes effect before
    the next dispatched event, and from then on the handler receives nothing
    while every other registered handler still receives.  The error
    subscription of the mock is a no-op: it registers nothing and returns
    no function. *)
Theorem unsubscribe_of_batch_and_completion :
  unsubscribe_contract onDirectoryScanBatch
  /\ unsubscribe_contract onDirectoryScanComplete
  /\ (forall (cb : Callback) (w : Window),
         result (onDirectoryScanError cb) w = None
         /\ exec (onDirectoryScanError cb) w = w).
Proof.
  split; [apply (subscription_contract batch_event)|].
  split; [apply (subscription_contract complete_event)|].
  intros cb w. split; reflexivity.
Qed.

(** C4 as stated fails for the third subscription: [onDirectoryScanError]
    returns [undefined], not an unsubscribe function, and registers no
    listener. *)
Lemma error_subscription_returns_no_function :
  result (onDirectoryScanError 2) (initial_window 0) = None
  /\ listeners (exec (onDirectoryScanError 2) (initial_window 0)) = [].
Proof. split; reflexivity. Qed.

End SubscriberTheorems.

Section StreamTheorems.

Lemma scan_timers_alone (d : DirectoryId) (t : Z) :
  insert_timers (scan_timers d t) [] = scan_timers d t.
Proof.
  assert (E1 : (t + 100 <=? t + 300) = true) by (apply Z.leb_le; lia).
  assert (E2 : (t + 100 <=? t + 500) = true) by (apply Z.leb_le; lia).
  assert (E3 : (t + 300 <=? t + 500) = true) by (apply Z.leb_le; lia).
  unfold insert_timers, scan_timers.
  cbn [fold_left insert_timer due]. rewrite E1.
  cbn [fold_left insert_timer due]. rewrite E2, E3.
  reflexivity.
Qed.

Lemma task_of_inserted (ev : CustomEvent) (t : Timer) (q : list Timer) :
  In ev (map task (insert_timer t q)) <-> task t = ev \/ In ev (map task q).
Proof.
  rewrite !in_map_iff. split.
  - intros (x & <- & Hx). apply insert_timer_In in Hx.
    destruct Hx as [->|Hx]; [now left|right; eauto].
  - intros [<-|(x & <- & Hx)]; eexists; (split; [reflexivity|]);
      apply insert_timer_In; auto.
Qed.

(** The timers one call sets. *)
Lemma stream_scheduled (a : StreamArgs) (w : Window) :
  scheduled_by (streamDirectoryFiles a) w
  = scan_timers (arg_directoryId a) (now w).
Proof. unfold scheduled_by. rewrite stream_exec. apply scan_timers_alone. Qed.

Lemma stream_timers (a : StreamArgs) (w : Window) :
  timers (exec (streamDirectoryFiles a) w)
  = insert_timers (scheduled_by (streamDirectoryFiles a) w) (timers w).
Proof. now rewrite stream_scheduled, stream_exec. Qed.

Lemma stream_shape (a : StreamArgs) (w : Window) :
  schedule_shape a w = expected_shape.
Proof.
  unfold schedule_shape. rewrite stream_scheduled.
  unfold scan_timers, expected_shape. cbn [map due task].
  rewrite !Z.add_simpl_l. reflexivity.
Qed.

(** C9: whatever the argument (directoryId, path) and the state of the page,
    a call of the mocked [streamDirectoryFiles] resolves to
    [{ success: true }] and sets exactly three timers: a batch of the 50
    files file1.png .. file50.png after 100 ms, a batch of the 50 files
    file51.png .. file100.png after 300 ms, and a completion with total 100
    after 500 ms.  Any two calls agree on all of this; the events differ
    only in the directoryId they echo and in [lastModified]. *)
Theorem stream_independent_of_input (a1 a2 : StreamArgs) (w1 w2 : Window) :
  result (streamDirectoryFiles a1) w1
  = Js.Resolved (Js.Obj [("success"%string, Js.Bool true)])
  /\ result (streamDirectoryFiles a1) w1 = result (streamDirectoryFiles a2) w2
  /\ schedule_shape a1 w1 = expected_shape
  /\ schedule_shape a1 w1 = schedule_shape a2 w2
  /\ timers (exec (streamDirectoryFiles a1) w1)
     = insert_timers (scheduled_by (streamDirectoryFiles a1) w1) (timers w1)
  /\ Forall (fun t => directory_of (task t) = arg_directoryId a1)
            (scheduled_by (streamDirectoryFiles a1) w1)
  /\ map file_name (seq 1 50) ++ map file_name (seq 51 50)
     = map file_name (seq 1 100)
  /\ (file_name 1, file_name 50, file_name 51, file_name 100)
     = ("file1.png", "file50.png", "file51.png", "file100.png")%string.
Proof.
  repeat split; try reflexivity.
  - apply stream_shape.
  - now rewrite !stream_shape.
  - apply stream_timers.
  - rewrite stream_scheduled. repeat constructor.
Qed.

(** C6 as stated fails: the call returns [{ success: true }], which is no
    DirectoryId. *)
Lemma stream_returns_no_directory_id :
  result (streamDirectoryFiles (mkArgs "dir-1"%string "/__tests__/fixtures/images"%string))
         (initial_window 0)
  = Js.Resolved (Js.Obj [("success"%string, Js.Bool true)])
  /\ ~ returns_directory_id
         (result (streamDirectoryFiles (mkArgs "dir-1"%string "/__tests__/fixtures/images"%string))
                 (initial_window 0)).
Proof.
  split; [reflexivity|]. intros [d H]. discriminate H.
Qed.

(** C6, amended: a call of [streamDirectoryFiles] returns at once a promise
    resolved with [{ success: true }] (no DirectoryId: the id is the
    caller's, echoed by every event); no event is dispatched or delivered
    during the call; the two batches and the completion for that id are due
    strictly later (100, 300 and 500 ms after the call), and they are
    dispatched, after everything dispatched before, once the event loop has
    run. *)
Theorem stream_returns_before_events (a : StreamArgs) (w : Window) :
  result (streamDirectoryFiles a) w
  = Js.Resolved (Js.Obj [("success"%string, Js.Bool true)])
  /\ dispatched (exec (streamDirectoryFiles a) w) = dispatched w
  /\ delivered (exec (streamDirectoryFiles a) w) = delivered w
  /\ map task (scheduled_by (streamDirectoryFiles a) w)
     = scan_events (arg_directoryId a) (now w)
  /\ Forall (fun t => now w < due t) (scheduled_by (streamDirectoryFiles a) w)
  /\ map (fun t => due t - now w) (scheduled_by (streamDirectoryFiles a) w)
     = [100; 300; 500]
  /\ (forall ev,
         In ev (scan_events (arg_directoryId a) (now w)) ->
         In ev (skipn (List.length (dispatched w))
                      (dispatched (drain (exec (streamDirectoryFiles a) w))))).
Proof.
  repeat split; try reflexivity.
  - now rewrite stream_scheduled.
  - rewrite stream_scheduled. repeat constructor; simpl; lia.
  - rewrite stream_scheduled. unfold scan_timers. cbn [map due].
    now rewrite !Z.add_simpl_l.
  - intros ev Hev. rewrite drain_dispatched.
    change (dispatched (exec (streamDirectoryFiles a) w)) with (dispatched w).
    rewrite skipn_app, Nat.sub_diag, skipn_all. simpl.
    rewrite !task_of_inserted. simpl in Hev. simpl. intuition auto.
Qed.

End StreamTheorems.

Section AllowedPaths.

(** No event dispatched and no event pending in a timer is a scan-error. *)
Lemma no_error_event_pending (ops : list Op) (t0 : Z) :
  Forall (fun ev => is_error ev = false)
         (dispatched (run ops (initial_window t0))
          ++ map task (timers (run ops (initial_window t0)))).
Proof.
  induction ops as [|o ops IH] using rev_ind; [constructor|].
  rewrite run_snoc. set (w := run ops (initial_window t0)) in *.
  rewrite step_dispatched, step_timers.
  rewrite Forall_forall in IH |- *.
  destruct o; try exact IH.
  - intros ev Hev. apply in_app_iff in Hev. destruct Hev as [Hev|Hev].
    + apply IH, in_app_iff. now left.
    + unfold insert_timers in Hev. cbn [fold_left scan_timers] in Hev.
      rewrite !task_of_inserted in Hev.
      destruct Hev as [<-|[<-|[<-|Hev]]]; try reflexivity.
      apply IH, in_app_iff. now right.
  - intros ev Hev. apply IH.
    destruct (timers w) as [|t q]; simpl in *.
    + now rewrite app_nil_r in Hev.
    + now rewrite <- app_assoc in Hev.
Qed.

(** C5 as stated fails: after [updateAllowedPaths(['/allowed'])], a scan of
    '/forbidden' is answered by two batches and a completion; no scan-error
    event is dispatched. *)
Lemma disallowed_path_is_scanned :
  filter is_error (dispatched (drain (run disallowed_scan (initial_window 0)))) = []
  /\ map type (events_for "dir-1"%string
                 (dispatched (drain (run disallowed_scan (initial_window 0)))))
     = [batch_event; batch_event; complete_event]
  /\ List.length
       (filter is_batch
          (events_for "dir-1"%string
             (dispatched (drain (run disallowed_scan (initial_window 0))))))
     = 2%nat.
Proof. repeat split; reflexivity. Qed.

(** C5, amended: the mock has no allowed-paths policy.  [updateAllowedPaths]
    leaves the page as it is, [streamDirectoryFiles] does not read the path,
    and in no run is a scan-error event ever dispatched: a request on any
    path sets the timers of the two batches and of the completion. *)
Theorem no_allowed_paths_policy :
  (forall (paths : list string) (w : Window),
      exec (updateAllowedPaths paths) w = w
      /\ result (updateAllowedPaths paths) w = Js.Resolved Js.Undefined)
  /\ (forall (d : DirectoryId) (p1 p2 : string) (w : Window),
         streamDirectoryFiles (mkArgs d p1) w = streamDirectoryFiles (mkArgs d p2) w)
  /\ (forall (ops : list Op) (t0 : Z),
         filter is_error (dispatched (run ops (initial_window t0))) = []
         /\ filter is_error (dispatched (drain (run ops (initial_window t0)))) = [])
  /\ (forall (a : StreamArgs) (w : Window),
         map task (scheduled_by (streamDirectoryFiles a) w)
         = scan_events (arg_directoryId a) (now w)).
Proof.
  split; [intros; split; reflexivity|].
  split; [intros; reflexivity|].
  split.
  - intros ops t0. pose proof (no_error_event_pending ops t0) as H.
    rewrite Forall_forall in H.
    split; apply filter_none; intros ev Hev; apply H.
    + apply in_app_iff. now left.
    + now rewrite drain_dispatched in Hev.
  - intros a w. now rewrite stream_scheduled.
Qed.

End AllowedPaths.

Section ConsumerTheorems.

Lemma scenario_timers (d : DirectoryId) (path : string) (t0 : Z) :
  Consumer.scenario d path t0
  = set_timers (scan_timers d t0) (exec Consumer.attach (initial_window t0)).
Proof.
  unfold Consumer.scenario. rewrite stream_exec.
  change (timers (exec Consumer.attach (initial_window t0))) with (@nil Timer).
  now rewrite scan_timers_alone.
Qed.

(** What the consumer has been handed after one, two and three turns of the
    event loop: batch A, then batch B, then the completion. *)
Lemma scenario_inbox (d : DirectoryId) (path : string) (t0 : Z) :
  Consumer.inbox (run_timers 1 (Consumer.scenario d path t0))
  = [BatchDetail d (files_at 1 t0)]
  /\ Consumer.inbox (run_timers 2 (Consumer.scenario d path t0))
     = [BatchDetail d (files_at 1 t0); BatchDetail d (files_at 51 t0)]
  /\ Consumer.inbox (run_timers 3 (Consumer.scenario d path t0))
     = [BatchDetail d (files_at 1 t0); BatchDetail d (files_at 51 t0);
        CompleteDetail d 100].
Proof. rewrite scenario_timers. repeat split; reflexivity. Qed.

Lemma view_of_inbox (d : DirectoryId) (w : Window) (xs : list Detail) :
  Consumer.inbox w = xs ->
  Consumer.view d w = Consumer.handle_all d xs (Consumer.submit Consumer.idle).
Proof. intros <-. reflexivity. Qed.

(** C3: in the scenario where the mock emits batch A (file1.png ..
    file50.png), batch B (file51.png .. file100.png) and the completion with
    total 100, the consumer's accumulated count is 50 after A, 100 after B,
    and still 100 after the completion, which leaves it [Loaded] with the
    files file1.png .. file100.png in order and no anomaly logged. *)
Theorem consumer_counts_50_100_100 (d : DirectoryId) (path : string) (t0 : Z) :
  map event_shape (map task (timers (Consumer.scenario d path t0)))
  = [ (batch_event, inl (map file_name (seq 1 50)));
      (batch_event, inl (map file_name (seq 51 50)));
      (complete_event, inr 100) ]
  /\ Consumer.count (Consumer.view d (Consumer.scenario d path t0)) = 0%nat
  /\ Consumer.count (Consumer.view d (run_timers 1 (Consumer.scenario d path t0))) = 50%nat
  /\ Consumer.count (Consumer.view d (run_timers 2 (Consumer.scenario d path t0))) = 100%nat
  /\ Consumer.count (Consumer.view d (run_timers 3 (Consumer.scenario d path t0))) = 100%nat
  /\ Consumer.phase (Consumer.view d (run_timers 2 (Consumer.scenario d path t0)))
     = Consumer.Scanning
  /\ Consumer.phase (Consumer.view d (run_timers 3 (Consumer.scenario d path t0)))
     = Consumer.Loaded
  /\ Consumer.anomalies (Consumer.view d (run_timers 3 (Consumer.scenario d path t0))) = 0%nat
  /\ map name (Consumer.accumulated
                 (Consumer.view d (run_timers 3 (Consumer.scenario d path t0))))
     = map file_name (seq 1 100)
  /\ drain (Consumer.scenario d path t0) = run_timers 3 (Consumer.scenario d path t0).
Proof.
  destruct (scenario_inbox d path t0) as (H1 & H2 & H3).
  rewrite (view_of_inbox d _ _ H1), (view_of_inbox d _ _ H2),
    (view_of_inbox d _ _ H3).
  unfold Consumer.handle_all, Consumer.handle. cbn [fold_left].
  rewrite !String.eqb_refl.
  split; [rewrite scenario_timers; reflexivity|].
  split; [reflexivity|].
  repeat split; try reflexivity.
  unfold drain. now rewrite scenario_timers.
Qed.

(** C8: a completion with total 0 that follows no batch (an empty
    directory) takes the consumer, which entered [Scanning] when it
    submitted its request, to [Loaded] with an accumulated count of 0; so
    does the same event dispatched on the page to the subscribed
    consumer. *)
Theorem empty_directory_loads (d : DirectoryId) (t0 : Z) :
  Consumer.handle_all d [CompleteDetail d 0] (Consumer.submit Consumer.idle)
  = Consumer.mkState Consumer.Loaded [] 0
  /\ Consumer.view d
       (exec (dispatchEvent (mkEvent complete_event (CompleteDetail d 0)))
             (exec Consumer.attach (initial_window t0)))
     = Consumer.mkState Consumer.Loaded [] 0
  /\ Consumer.count
       (Consumer.view d
          (exec (dispatchEvent (mkEvent complete_event (CompleteDetail d 0)))
                (exec Consumer.attach (initial_window t0))))
     = 0%nat.
Proof.
  assert (H : Consumer.handle_all d [CompleteDetail d 0]
                (Consumer.submit Consumer.idle)
              = Consumer.mkState Consumer.Loaded [] 0).
  { unfold Consumer.handle_all, Consumer.handle. cbn [fold_left].
    now rewrite String.eqb_refl. }
  split; [exact H|].
  rewrite (view_of_inbox d _ [CompleteDetail d 0]) by reflexivity.
  rewrite H. split; reflexivity.
Qed.

End ConsumerTheorems.

(* ------------------------------------------------------------------ *)
(** ** Facts about the hotkey scripts *)

Section Hotkeys.

Import Playwright HotkeyRuns.
Local Open Scope py_scope.
Local Open Scope nat_scope.

Lemma run_verification_guarded :
  VerifyHotkeys.run_verification
  = guarded VerifyHotkeys.body VerifyHotkeys.error_png.
Proof. reflexivity. Qed.

Lemma run_guarded :
  VerifyHotkeysFix.run = guarded VerifyHotkeysFix.body VerifyHotkeysFix.error_png.
Proof. reflexivity. Qed.

Lemma setup_returns (env : Env) :
  setup_succeeds env -> VerifyHotkeys.setup env [] = (setup_trace, Returned tt).
Proof.
  intros (H0 & H1 & H2).
  cbv [VerifyHotkeys.setup bind call]. simpl. rewrite H0. simpl.
  rewrite H1. simpl. now rewrite H2.
Qed.

(** [finally: browser.close()] *)
Lemma finally_close {A : Type} (c : Py A) (env : Env) (tr tr' : list Entry)
      (out : Outcome A) :
  c env tr = (tr', out) ->
  finally c (call browser_close) env tr
  = (tr' ++ [mkEntry browser_close (env (List.length tr'))],
     after_close env (List.length tr') out).
Proof.
  intros H. unfold finally, call, after_close. rewrite H.
  now destruct (env (List.length tr')).
Qed.

Section Guarded.

Variable body : Py unit.
Variable png : string.
Variable env : Env.
Hypothesis Hsetup : setup_succeeds env.

Lemma guarded_enters_try :
  guarded body png env []
  = try_except_finally
      body
      (fun e => call (print ("An error occurred: " ++ str e)) ;; call (screenshot png))
      (call browser_close) env setup_trace.
Proof.
  unfold guarded, bind at 1. now rewrite (setup_returns env Hsetup).
Qed.

(** Once the try is entered, [browser.close()] is the last call of the
    run. *)
Lemma guarded_closes :
  exists tr,
    fst (guarded body png env [])
    = tr ++ [mkEntry browser_close (env (List.length tr))].
Proof.
  rewrite guarded_enters_try. unfold try_except_finally.
  destruct (except_Exception body
              (fun e => call (print ("An error occurred: " ++ str e)) ;;
                        call (screenshot png)) env setup_trace) as [tr out] eqn:E.
  rewrite (finally_close _ _ _ _ _ E). now exists tr.
Qed.

(** The body returns: close, and nothing else. *)
Lemma guarded_passes (tr1 : list Entry) :
  body env setup_trace = (tr1, Returned tt) ->
  guarded body png env []
  = (tr1 ++ [mkEntry browser_close (env (List.length tr1))],
     after_close env (List.length tr1) (Returned tt)).
Proof.
  intros Hb. rewrite guarded_enters_try. unfold try_except_finally.
  apply finally_close. unfold except_Exception. now rewrite Hb.
Qed.

(** The body raises an [Exception] and the handler's two calls return: the
    message, the error screenshot, close; the exception is swallowed. *)
Lemma guarded_handles (tr1 : list Entry) (e : Exn) :
  body env setup_trace = (tr1, Raised e) ->
  is_Exception e = true ->
  env (List.length tr1) = None ->
  env (S (List.length tr1)) = None ->
  guarded body png env []
  = (tr1 ++ [ mkEntry (print ("An error occurred: " ++ str e)) None;
              mkEntry (screenshot png) None;
              mkEntry browser_close (env (2 + List.length tr1)) ],
     after_close env (2 + List.length tr1) (Returned tt)).
Proof.
  intros Hb He H1 H2. rewrite guarded_enters_try. unfold try_except_finally.
  erewrite finally_close.
  2:{ unfold except_Exception. rewrite Hb, He.
      unfold bind, call. rewrite H1, length_app. simpl.
      rewrite Nat.add_1_r, H2. reflexivity. }
  rewrite <- !app_assoc, !length_app. simpl.
  now rewrite Nat.add_comm.
Qed.

(** The body raises something that is no [Exception]: close only, and the
    exception propagates. *)
Lemma guarded_propagates (tr1 : list Entry) (e : Exn) :
  body env setup_trace = (tr1, Raised e) ->
  is_Exception e = false ->
  guarded body png env []
  = (tr1 ++ [mkEntry browser_close (env (List.length tr1))],
     after_close env (List.length tr1) (Raised e)).
Proof.
  intros Hb He. rewrite guarded_enters_try. unfold try_except_finally.
  apply finally_close. unfold except_Exception. now rewrite Hb, He.
Qed.

End Guarded.

(** C10, amended: in every run of either hotkey script in which the browser,
    the context and the page were created (the [try] is entered),
    [browser.close()] is executed on every control path, as the last call.
    When all steps pass nothing else follows them.  When a step raises an
    [Exception] and the handler's own calls (the message and the error
    screenshot) return, the error screenshot is captured before the close
    and the exception does not propagate: the script returns if the close
    does. *)
Theorem browser_closed_once_try_entered (env : Env) :
  setup_succeeds env ->
  script_contract VerifyHotkeys.run_verification VerifyHotkeys.body
                  VerifyHotkeys.error_png env
  /\ script_contract VerifyHotkeysFix.run VerifyHotkeysFix.body
                     VerifyHotkeysFix.error_png env.
Proof.
  intros Hs. rewrite run_verification_guarded, run_guarded.
  split; (split; [|split]);
    auto using guarded_closes, guarded_passes, guarded_handles.
Qed.

(** With the server down the first step raises: message, error screenshot,
    close, and [run_verification] returns. *)
Lemma browser_closed_once_try_entered_witness :
  setup_succeeds server_down
  /\ VerifyHotkeys.run_verification server_down []
     = (setup_trace
        ++ [ mkEntry (goto "http://localhost:5173")
                     (Some (PlaywrightError "net::ERR_CONNECTION_REFUSED"));
             mkEntry (print "An error occurred: net::ERR_CONNECTION_REFUSED") None;
             mkEntry (screenshot VerifyHotkeys.error_png) None;
             mkEntry browser_close None ],
        Returned tt).
Proof.
  assert (Hs : setup_succeeds server_down) by (repeat split).
  split; [exact Hs|].
  exact (proj2 (proj2 (proj1 (browser_closed_once_try_entered server_down Hs)))
           (setup_trace
            ++ [mkEntry (goto "http://localhost:5173")
                        (Some (PlaywrightError "net::ERR_CONNECTION_REFUSED"))])
           (PlaywrightError "net::ERR_CONNECTION_REFUSED")
           eq_refl eq_refl eq_refl eq_refl).
Defined.

(** C10 as stated fails: here an exception is raised in the [try], yet no
    error screenshot is captured, and an exception propagates out of
    [run_verification] (after [browser.close()]). *)
Lemma error_screenshot_failure_propagates :
  VerifyHotkeys.run_verification browser_crashed []
  = (setup_trace
     ++ [ mkEntry (goto "http://localhost:5173") (Some (PlaywrightError "Page crashed"));
          mkEntry (print "An error occurred: Page crashed") None;
          mkEntry (screenshot VerifyHotkeys.error_png)
                  (Some (PlaywrightError "Target closed"));
          mkEntry browser_close None ],
     Raised (PlaywrightError "Target closed"))
  /\ existsb (captured VerifyHotkeys.error_png)
             (fst (VerifyHotkeys.run_verification browser_crashed [])) = false
  /\ VerifyHotkeysFix.run browser_crashed []
     = (setup_trace
        ++ [ mkEntry (goto "http://localhost:5173") (Some (PlaywrightError "Page crashed"));
             mkEntry (print "An error occurred: Page crashed") None;
             mkEntry (screenshot VerifyHotkeysFix.error_png)
                     (Some (PlaywrightError "Target closed"));
             mkEntry browser_close None ],
        Raised (PlaywrightError "Target closed")).
Proof. repeat split; reflexivity. Qed.

(** Before the [try], nothing closes the browser: the exception of the
    setup propagates and [browser.close()] is never called. *)
Lemma browser_left_open_when_setup_fails :
  VerifyHotkeys.run_verification context_refused []
  = ([ mkEntry (chromium_launch true) None;
       mkEntry new_context (Some (PlaywrightError "Browser closed")) ],
     Raised (PlaywrightError "Browser closed"))
  /\ closes (fst (VerifyHotkeys.run_verification context_refused [])) = 0
  /\ closes (fst (VerifyHotkeysFix.run context_refused [])) = 0.
Proof. repeat split; reflexivity. Qed.

Lemma interrupt_is_not_handled :
  snd (VerifyHotkeys.run_verification interrupted []) = Raised KeyboardInterrupt
  /\ closes (fst (VerifyHotkeys.run_verification interrupted [])) = 1
  /\ existsb (captured VerifyHotkeys.error_png)
             (fst (VerifyHotkeys.run_verification interrupted [])) = false.
Proof. repeat split; reflexivity. Qed.

End Hotkeys.

(* ------------------------------------------------------------------ *)
(** ** More about the page: tallies, payloads, subscriptions *)

Import Observe.

Section Tallies.

Local Open Scope nat_scope.

Lemma weigh_app (f : CustomEvent -> nat) (l1 l2 : list CustomEvent) :
  weigh f (l1 ++ l2) = weigh f l1 + weigh f l2.
Proof. unfold weigh. now rewrite map_app, list_sum_app. Qed.

Lemma weigh_insert (f : CustomEvent -> nat) (t : Timer) (q : list Timer) :
  weigh f (map task (insert_timer t q)) = f (task t) + weigh f (map task q).
Proof.
  unfold weigh. induction q as [|x q IH]; simpl; [reflexivity|].
  destruct (due x <=? due t)%Z; simpl; [rewrite IH|]; lia.
Qed.

Lemma weigh_filter (p : CustomEvent -> bool) (g : CustomEvent -> nat)
      (l : list CustomEvent) :
  list_sum (map g (filter p l)) = weigh (fun ev => if p ev then g ev else 0) l.
Proof.
  unfold weigh. induction l as [|x l IH]; simpl; [reflexivity|].
  destruct (p x); simpl; now rewrite IH.
Qed.

Lemma length_as_sum {A : Type} (l : list A) :
  List.length l = list_sum (map (fun _ => 1) l).
Proof. induction l as [|x l IH]; simpl; congruence. Qed.

Lemma filter_both {A : Type} (p q : A -> bool) (l : list A) :
  filter q (filter p l) = filter (fun x => p x && q x) l.
Proof.
  induction l as [|x l IH]; simpl; [reflexivity|].
  destruct (p x); simpl; [destruct (q x)|]; now rewrite IH.
Qed.

(** A tally to which every call for [d] adds [k], and a call for another
    directoryId nothing, stands at [k] times the number of calls for [d]
    when taken over the events dispatched and the events still pending. *)
Lemma tally_invariant (f : CustomEvent -> nat) (k : nat) (d : DirectoryId) :
  (forall d' t,
      weigh f (scan_events d' t) = if String.eqb d' d then k else 0) ->
  forall (ops : list Op) (t0 : Z),
    weigh f (dispatched (run ops (initial_window t0)))
    + weigh f (map task (timers (run ops (initial_window t0))))
    = k * scans_of d ops.
Proof.
  intros Hf ops t0. induction ops as [|o ops IH] using rev_ind.
  - unfold scans_of, weigh. simpl. lia.
  - rewrite run_snoc, scans_of_snoc.
    set (w := run ops (initial_window t0)) in *.
    rewrite step_dispatched, step_timers.
    destruct o; simpl is_scan_of; rewrite ?Nat.add_0_r; try exact IH.
    + unfold insert_timers. cbn [fold_left scan_timers].
      rewrite !weigh_insert. cbn [task].
      specialize (Hf (arg_directoryId args) (now w)).
      unfold scan_events, weigh in Hf. cbn [map list_sum fold_right] in Hf.
      destruct (String.eqb (arg_directoryId args) d); lia.
    + destruct (timers w) as [|t q]; simpl.
      * now rewrite app_nil_r.
      * rewrite weigh_app. unfold weigh in *. simpl in *. lia.
Qed.

Lemma drained_tally (f : CustomEvent -> nat) (k : nat) (d : DirectoryId) :
  (forall d' t,
      weigh f (scan_events d' t) = if String.eqb d' d then k else 0) ->
  forall (ops : list Op) (t0 : Z),
    weigh f (dispatched (drain (run ops (initial_window t0)))) = k * scans_of d ops.
Proof.
  intros Hf ops t0. rewrite drain_dispatched, weigh_app.
  now apply tally_invariant.
Qed.

Lemma batches_for_weigh (d : DirectoryId) (evs : list CustomEvent) :
  batches_for d evs
  = weigh (fun ev => if is_for d ev && is_batch ev then 1 else 0) evs.
Proof.
  unfold batches_for, events_for.
  now rewrite filter_both, length_as_sum, weigh_filter.
Qed.

Lemma terminals_for_weigh (d : DirectoryId) (evs : list CustomEvent) :
  terminals_for d evs
  = weigh (fun ev => if is_for d ev && is_terminal ev then 1 else 0) evs.
Proof.
  unfold terminals_for, events_for.
  now rewrite filter_both, length_as_sum, weigh_filter.
Qed.

Lemma batch_file_total_weigh (d : DirectoryId) (evs : list CustomEvent) :
  batch_file_total d evs
  = weigh (fun ev => if is_for d ev && is_batch ev then file_count ev else 0) evs.
Proof.
  unfold batch_file_total, events_for. now rewrite filter_both, weigh_filter.
Qed.

(** A property of the three events of every call holds of every event
    dispatched or pending. *)
Lemma every_event (P : CustomEvent -> Prop) :
  (forall d t ev, In ev (scan_events d t) -> P ev) ->
  forall (ops : list Op) (t0 : Z),
    Forall P (dispatched (run ops (initial_window t0))
              ++ map task (timers (run ops (initial_window t0)))).
Proof.
  intros HP ops t0. induction ops as [|o ops IH] using rev_ind; [constructor|].
  rewrite run_snoc. set (w := run ops (initial_window t0)) in *.
  rewrite step_dispatched, step_timers.
  rewrite Forall_forall in IH |- *.
  destruct o; try exact IH.
  - intros ev Hev. apply in_app_iff in Hev. destruct Hev as [Hev|Hev].
    + apply IH, in_app_iff. now left.
    + unfold insert_timers in Hev. cbn [fold_left scan_timers] in Hev.
      rewrite !task_of_inserted in Hev. cbn [task] in Hev.
      destruct Hev as [<-|[<-|[<-|Hev]]];
        try solve [apply (HP (arg_directoryId args) (now w)); simpl; auto].
      apply IH, in_app_iff. now right.
  - intros ev Hev. apply IH.
    destruct (timers w) as [|t q]; simpl in *.
    + now rewrite app_nil_r in Hev.
    + now rewrite <- app_assoc in Hev.
Qed.

(** X1: scans add up per directoryId, also when an id is reused.  After any
    program of the page in which [streamDirectoryFiles] was called [n] times
    with directoryId [d], once the timers have fired the page has dispatched
    [2 n] batch events and [n] terminal events for [d], the batches carry
    [100 n] files in all, and every terminal event of [d] is a completion
    with total 100; before the timers have fired, nothing beyond that. *)
Theorem scans_add_up (ops : list Op) (t0 : Z) (d : DirectoryId) :
  batches_for d (dispatched (drain (run ops (initial_window t0))))
  = 2 * scans_of d ops
  /\ terminals_for d (dispatched (drain (run ops (initial_window t0))))
     = scans_of d ops
  /\ batch_file_total d (dispatched (drain (run ops (initial_window t0))))
     = 100 * scans_of d ops
  /\ Forall (fun ev => detail ev = CompleteDetail d 100)
            (filter is_terminal
                    (events_for d (dispatched (drain (run ops (initial_window t0))))))
  /\ batches_for d (dispatched (run ops (initial_window t0))) <= 2 * scans_of d ops
  /\ terminals_for d (dispatched (run ops (initial_window t0))) <= scans_of d ops.
Proof.
  assert (Hb : forall d' t,
             weigh (fun ev => if is_for d ev && is_batch ev then 1 else 0)
                   (scan_events d' t)
             = if String.eqb d' d then 2 else 0).
  { intros d' t.
    unfold weigh, scan_events, is_for, directory_of, is_batch, is_terminal,
      file_count.
    cbn. now destruct (String.eqb d' d). }
  assert (Ht : forall d' t,
             weigh (fun ev => if is_for d ev && is_terminal ev then 1 else 0)
                   (scan_events d' t)
             = if String.eqb d' d then 1 else 0).
  { intros d' t.
    unfold weigh, scan_events, is_for, directory_of, is_batch, is_terminal,
      file_count.
    cbn. now destruct (String.eqb d' d). }
  assert (Hf : forall d' t,
             weigh (fun ev => if is_for d ev && is_batch ev then file_count ev else 0)
                   (scan_events d' t)
             = if String.eqb d' d then 100 else 0).
  { intros d' t.
    unfold weigh, scan_events, is_for, directory_of, is_batch, is_terminal,
      file_count.
    cbn. now destruct (String.eqb d' d). }
  rewrite !batches_for_weigh, !terminals_for_weigh, batch_file_total_weigh.
  rewrite (drained_tally _ _ _ Hb), (drained_tally _ _ _ Ht), (drained_tally _ _ _ Hf).
  pose proof (tally_invariant _ _ _ Hb ops t0) as Ib.
  pose proof (tally_invariant _ _ _ Ht ops t0) as It.
  repeat split; try lia.
  apply Forall_forall. intros ev Hev.
  apply filter_In in Hev. destruct Hev as [Hev Hterm].
  apply filter_In in Hev. destruct Hev as [Hev Hd].
  pose proof (every_event
                (fun ev => is_terminal ev = true ->
                           detail ev = CompleteDetail (directory_of ev) 100)) as H.
  rewrite drain_dispatched in Hev.
  assert (Hscan : forall d' t e,
             In e (scan_events d' t) ->
             is_terminal e = true -> detail e = CompleteDetail (directory_of e) 100).
  { intros d' t e [<-|[<-|[<-|[]]]]; unfold is_terminal, directory_of; cbn;
      intros; congruence. }
  specialize (H Hscan ops t0).
  rewrite Forall_forall in H. specialize (H ev Hev Hterm).
  unfold is_for in Hd. apply String.eqb_eq in Hd. now rewrite Hd in H.
Qed.

End Tallies.

Section Payloads.

Local Open Scope nat_scope.

(** On a reachable page a subscription appends its listener: the function
    object is new, so [addEventListener] finds no duplicate. *)
Lemma subscription_appends (ty : string) (cb : Callback) (w : Window) :
  well_formed w ->
  listeners (exec (subscription ty cb) w)
  = listeners w ++ [mkListener ty (fresh_handler cb w)].
Proof.
  intros (Hl & _). destruct (subscription_fields ty cb w) as (-> & _).
  unfold add_listener. destruct (existsb _ _) eqn:E; [|reflexivity].
  apply existsb_exists in E. destruct E as (l & Hin & Hsame).
  unfold same_listener in Hsame. apply andb_prop in Hsame.
  destruct Hsame as [_ Hid]. apply Nat.eqb_eq in Hid. simpl in Hid.
  rewrite Forall_forall in Hl. specialize (Hl l Hin). lia.
Qed.

Lemma subscription_wraps (ty : string) (cb : Callback) (w : Window) :
  well_formed w ->
  wraps (next_handler w) ty cb (exec (subscription ty cb) w).
Proof.
  intros Hw. unfold wraps. rewrite (subscription_appends ty cb w Hw).
  destruct (subscription_fields ty cb w) as (_ & -> & _).
  destruct Hw as (Hl & _). split; [lia|].
  rewrite Forall_forall in *. intros l Hin Hid.
  apply in_app_iff in Hin. destruct Hin as [Hin|[<-|[]]].
  - specialize (Hl l Hin). lia.
  - reflexivity.
Qed.

Lemma step_wraps (h : nat) (ty : string) (cb : Callback) (o : Op) (w : Window) :
  wraps h ty cb w -> wraps h ty cb (step o w).
Proof.
  intros (Hh & Hl). unfold wraps.
  rewrite step_listeners, step_next_handler.
  rewrite Forall_forall in Hl.
  destruct o; (split; [lia|]); rewrite ?Forall_forall; auto.
  - intros l Hin Hid. unfold add_listener in Hin. destruct (existsb _ _); [auto|].
    apply in_app_iff in Hin. destruct Hin as [Hin|[<-|[]]]; [auto|].
    simpl in Hid. lia.
  - intros l Hin Hid. unfold add_listener in Hin. destruct (existsb _ _); [auto|].
    apply in_app_iff in Hin. destruct Hin as [Hin|[<-|[]]]; [auto|].
    simpl in Hid. lia.
  - intros l Hin. apply filter_In in Hin. apply Hl. tauto.
Qed.

Lemma run_wraps (h : nat) (ty : string) (cb : Callback) (ops : list Op) (w : Window) :
  wraps h ty cb w -> wraps h ty cb (run ops w).
Proof.
  revert w. induction ops as [|o ops IH]; simpl; intros w Hw; [exact Hw|].
  apply IH. now apply step_wraps.
Qed.

(** The three events of a call are well typed. *)
Lemma scan_events_well_typed (d : DirectoryId) (t : Z) (ev : CustomEvent) :
  In ev (scan_events d t) -> well_typed ev.
Proof.
  intros [<-|[<-|[<-|[]]]]; unfold well_typed; simpl; split; reflexivity.
Qed.

Lemma subscription_typed (ty : string) (o_sub : Callback -> Op) :
  (forall cb w, step (o_sub cb) w = exec (subscription ty cb) w) ->
  typed_delivery ty (subscription ty).
Proof.
  intros Hsub ops0 ops1 t0 cb.
  pose proof (run_well_formed ops0 _ (initial_well_formed t0)) as Hw.
  set (w0 := run ops0 (initial_window t0)) in *.
  exists (mkUnsubscribe ty (fresh_handler cb w0)).
  split; [apply subscription_result|]. simpl.
  induction ops1 as [|o ops1 IH] using rev_ind.
  - simpl. destruct (subscription_fields ty cb w0) as (_ & _ & Hd & _).
    unfold received_by. rewrite Hd.
    fold (received_by (next_handler w0) w0).
    rewrite received_by_fresh by exact Hw. constructor.
  - rewrite run_snoc.
    pose proof (run_wraps _ ty cb ops1 _ (subscription_wraps ty cb w0 Hw)) as Hwr.
    pose proof (every_event well_typed scan_events_well_typed
                  (ops0 ++ o_sub cb :: ops1) t0) as Hty.
    rewrite run_app in Hty. simpl in Hty. fold w0 in Hty. rewrite Hsub in Hty.
    set (w := run ops1 (exec (subscription ty cb) w0)) in *.
    unfold received_by in *. rewrite step_delivered.
    destruct o; try exact IH.
    destruct (timers w) as [|t q] eqn:Eq; [exact IH|].
    rewrite filter_app. apply Forall_app. split; [exact IH|].
    apply Forall_forall. intros dl Hdl. apply filter_In in Hdl.
    destruct Hdl as [Hdl Hto]. apply Nat.eqb_eq in Hto.
    apply deliveries_of_In in Hdl. destruct Hdl as (l & Hin & Hlt & ->).
    simpl in Hto |- *.
    destruct Hwr as [_ Hwr]. rewrite Forall_forall in Hwr.
    specialize (Hwr l Hin Hto). subst l. simpl in Hlt. split; [reflexivity|].
    rewrite Forall_forall in Hty.
    specialize (Hty (task t)). rewrite Hlt. apply Hty.
    apply in_app_iff. right. simpl. now left.
Qed.

(** X2: a callback subscribed through [onDirectoryScanBatch] is only ever
    called (by its own handler) with a batch detail of 50 files, and one
    subscribed through [onDirectoryScanComplete] only with a completion
    detail of total 100, in every program of the page. *)
Theorem callbacks_receive_their_own_details :
  typed_delivery batch_event onDirectoryScanBatch
  /\ typed_delivery complete_event onDirectoryScanComplete.
Proof.
  split.
  - apply (subscription_typed batch_event CallOnDirectoryScanBatch). reflexivity.
  - apply (subscription_typed complete_event CallOnDirectoryScanComplete).
    reflexivity.
Qed.

End Payloads.

Section ExactlyOnce.

Local Open Scope nat_scope.

Lemma filter_length_le {A : Type} (f : A -> bool) (l : list A) :
  List.length (filter f l) <= List.length l.
Proof.
  induction l as [|x l IH]; simpl; [lia|]. destruct (f x); simpl; lia.
Qed.

Lemma step_listed_once (o : Op) (w : Window) :
  well_formed w -> listed_once w -> listed_once (step o w).
Proof.
  intros (Hl & _) Hn h. rewrite step_listeners. specialize (Hn h).
  assert (Hadd : forall ty cb,
             List.length
               (filter (fun l => handler_id (handler l) =? h)
                       (add_listener ty (fresh_handler cb w) (listeners w))) <= 1).
  { intros ty cb. unfold add_listener. destruct (existsb _ _); [exact Hn|].
    rewrite filter_app, length_app. simpl.
    destruct (next_handler w =? h) eqn:E; simpl; [|lia].
    apply Nat.eqb_eq in E. subst h.
    rewrite filter_none; [simpl; lia|].
    intros l Hin. rewrite Forall_forall in Hl. specialize (Hl l Hin).
    apply Nat.eqb_neq. lia. }
  destruct o; auto.
  unfold remove_listener. rewrite filter_comm.
  etransitivity; [apply filter_length_le|exact Hn].
Qed.

Lemma run_listed_once (ops : list Op) (t0 : Z) :
  listed_once (run ops (initial_window t0)).
Proof.
  induction ops as [|o ops IH] using rev_ind.
  - intros h. simpl. lia.
  - rewrite run_snoc. apply step_listed_once; [|exact IH].
    apply run_well_formed, initial_well_formed.
Qed.

Lemma sorted_snoc (l : list nat) (n : nat) :
  StronglySorted lt l -> Forall (fun x => x < n) l -> StronglySorted lt (l ++ [n]).
Proof.
  induction l as [|x l IH]; simpl; intros Hs Hf.
  - repeat constructor.
  - inversion Hs as [|? ? Hs' Hx]; subst. inversion Hf as [|? ? Hxn Hf']; subst.
    constructor; [now apply IH|].
    apply Forall_app. split; [exact Hx|]. now repeat constructor.
Qed.

(** What one turn hands to handler [h]: nothing, or one delivery of the event
    just dispatched. *)
Lemma turn_hands_at_most_one (h n : nat) (ev : CustomEvent) (w : Window) :
  listed_once w ->
  filter (fun dl => to_handler dl =? h) (deliveries_of n ev (listeners w)) = []
  \/ exists cb,
      filter (fun dl => to_handler dl =? h) (deliveries_of n ev (listeners w))
      = [mkDelivery h cb n (detail ev)].
Proof.
  intros Hn. specialize (Hn h). unfold deliveries_of.
  assert (Hmap : forall ls,
             filter (fun dl => to_handler dl =? h)
               (map (fun l => mkDelivery (handler_id (handler l))
                                         (callback (handler l)) n (detail ev)) ls)
             = map (fun l => mkDelivery (handler_id (handler l))
                                        (callback (handler l)) n (detail ev))
                   (filter (fun l => handler_id (handler l) =? h) ls)).
  { induction ls as [|l ls IH]; simpl; [reflexivity|].
    destruct (handler_id (handler l) =? h); simpl; now rewrite IH. }
  rewrite Hmap, filter_comm.
  pose proof (filter_length_le (fun l => String.eqb (listens_to l) (type ev))
                (filter (fun l => handler_id (handler l) =? h) (listeners w))) as Hle.
  destruct (filter _ (filter _ (listeners w))) as [|l [|l' ls]] eqn:E.
  - now left.
  - right. exists (callback (handler l)). simpl.
    assert (Hin : In l (filter (fun l => String.eqb (listens_to l) (type ev))
                          (filter (fun l => handler_id (handler l) =? h)
                                  (listeners w))))
      by (rewrite E; now left).
    apply filter_In in Hin. destruct Hin as [Hin _].
    apply filter_In in Hin. destruct Hin as [_ Hid].
    apply Nat.eqb_eq in Hid. now rewrite Hid.
  - simpl in Hle. lia.
Qed.

(** X3: in every program of the page, for every handler: the events it is
    handed come in strictly increasing emission order (so no event is handed
    to it twice, and none out of order), and each delivery carries the detail
    of the very event that was dispatched at that index. *)
Theorem each_event_once_in_order (ops : list Op) (t0 : Z) (h : nat) :
  StronglySorted lt (map emission (received_by h (run ops (initial_window t0))))
  /\ Forall (fun dl => exists ev,
                nth_error (dispatched (run ops (initial_window t0))) (emission dl)
                = Some ev
                /\ detail ev = payload dl)
            (received_by h (run ops (initial_window t0))).
Proof.
  induction ops as [|o ops IH] using rev_ind.
  - split; constructor.
  - destruct IH as [IHs IHf]. rewrite run_snoc.
    pose proof (run_well_formed ops _ (initial_well_formed t0)) as Hw.
    pose proof (run_listed_once ops t0) as Hn.
    set (w := run ops (initial_window t0)) in *.
    unfold received_by in *. rewrite step_delivered, step_dispatched.
    destruct o; auto.
    destruct (timers w) as [|t q]; simpl; rewrite ?app_nil_r; [auto|].
    assert (Hold : Forall (fun dl => exists ev,
                             nth_error (dispatched w ++ [task t]) (emission dl)
                             = Some ev /\ detail ev = payload dl)
                          (filter (fun dl => to_handler dl =? h) (delivered w))).
    { rewrite Forall_forall in IHf |- *. intros dl Hdl.
      destruct (IHf dl Hdl) as (ev & Hnth & Hdet). exists ev. split; [|exact Hdet].
      rewrite nth_error_app1; [exact Hnth|].
      apply nth_error_Some. congruence. }
    rewrite filter_app.
    destruct (turn_hands_at_most_one h (List.length (dispatched w)) (task t) w Hn)
      as [->|[cb ->]].
    + rewrite app_nil_r. split; [exact IHs|exact Hold].
    + rewrite map_app. simpl. split.
      * apply sorted_snoc; [exact IHs|].
        destruct Hw as (_ & _ & He). rewrite Forall_forall in He |- *.
        intros n Hin. apply in_map_iff in Hin. destruct Hin as (dl & <- & Hdl).
        apply filter_In in Hdl. apply He. tauto.
      * apply Forall_app. split; [exact Hold|].
        constructor; [|constructor]. simpl. exists (task t). split; [|reflexivity].
        rewrite nth_error_app2 by lia. now rewrite Nat.sub_diag.
Qed.

End ExactlyOnce.

Section SubscribeTwice.

Local Open Scope nat_scope.

Lemma invocations_app (cb : Callback) (l1 l2 : list Delivery) :
  invocations cb (l1 ++ l2) = invocations cb l1 + invocations cb l2.
Proof. unfold invocations. now rewrite filter_app, length_app. Qed.

Lemma deliveries_of_app (n : nat) (ev : CustomEvent) (l1 l2 : list Listener) :
  deliveries_of n ev (l1 ++ l2) = deliveries_of n ev l1 ++ deliveries_of n ev l2.
Proof. unfold deliveries_of. now rewrite filter_app, map_app. Qed.

Lemma filter_all {A : Type} (f : A -> bool) (l : list A) :
  (forall x, In x l -> f x = true) -> filter f l = l.
Proof.
  induction l as [|x l IH]; simpl; intros H; [reflexivity|].
  rewrite (H x) by now left. f_equal. apply IH. intros y Hy. apply H. now right.
Qed.

(** Listeners older than a handler are not touched by its unsubscribe
    function. *)
Lemma remove_keeps_older (ty : string) (hd : Handler) (ls : list Listener) :
  Forall (fun l => handler_id (handler l) < handler_id hd) ls ->
  remove_listener (mkUnsubscribe ty hd) ls = ls.
Proof.
  intros H. apply filter_all. intros l Hin.
  rewrite Forall_forall in H. specialize (H l Hin).
  unfold same_listener. simpl.
  replace (handler_id (handler l) =? handler_id hd) with false
    by (symmetry; apply Nat.eqb_neq; lia).
  now rewrite andb_false_r.
Qed.

Lemma same_listener_self (ty : string) (h : nat) (cb cb' : Callback) :
  same_listener ty (mkHandler h cb) (mkListener ty (mkHandler h cb')) = true.
Proof.
  unfold same_listener. simpl. now rewrite String.eqb_refl, Nat.eqb_refl.
Qed.

Lemma same_listener_other (ty ty' : string) (h h' : nat) (cb cb' : Callback) :
  h <> h' ->
  same_listener ty (mkHandler h cb) (mkListener ty' (mkHandler h' cb')) = false.
Proof.
  intros H. unfold same_listener. cbn [listens_to handler handler_id].
  replace (h' =? h) with false by (symmetry; apply Nat.eqb_neq; lia).
  apply andb_false_r.
Qed.

Lemma unsubscribe_listeners (u : Unsubscribe) (w : Window) :
  listeners (exec (call_unsubscribe u) w) = remove_listener u (listeners w).
Proof. reflexivity. Qed.

Lemma subscription_twice (ty : string) : double_subscription ty (subscription ty).
Proof.
  intros ops0 t0 cb.
  pose proof (run_well_formed ops0 _ (initial_well_formed t0)) as Hw0.
  set (w0 := run ops0 (initial_window t0)) in *.
  assert (Hw1 : well_formed (exec (subscription ty cb) w0)).
  { destruct Hw0 as (Hl & Hd & He).
    destruct (subscription_fields ty cb w0) as (Hls & Hn & Hdl & Hds & _).
    unfold well_formed. rewrite Hn, Hdl, Hds.
    rewrite (subscription_appends ty cb w0 (conj Hl (conj Hd He))).
    repeat split.
    - apply Forall_app. split.
      + eapply Forall_impl; [|exact Hl]. simpl. intros; lia.
      + constructor; [simpl; lia|constructor].
    - eapply Forall_impl; [|exact Hd]. simpl. intros; lia.
    - exact He. }
  set (w1 := exec (subscription ty cb) w0) in *.
  assert (Hn1 : next_handler w1 = S (next_handler w0))
    by (destruct (subscription_fields ty cb w0) as (_ & H & _); exact H).
  assert (Hl1 : listeners w1 = listeners w0 ++ [mkListener ty (fresh_handler cb w0)])
    by (apply subscription_appends; exact Hw0).
  assert (Hl2 : listeners (exec (subscription ty cb) w1)
                = listeners w0 ++ [mkListener ty (fresh_handler cb w0);
                                   mkListener ty (fresh_handler cb w1)]).
  { rewrite (subscription_appends ty cb w1 Hw1), Hl1, <- app_assoc. reflexivity. }
  assert (Hone : forall n ev h,
             type ev = ty ->
             invocations cb (deliveries_of n ev [mkListener ty (mkHandler h cb)]) = 1).
  { intros n ev h <-. unfold invocations, deliveries_of. simpl.
    rewrite String.eqb_refl. simpl. now rewrite Nat.eqb_refl. }
  exists (mkUnsubscribe ty (fresh_handler cb w0)),
         (mkUnsubscribe ty (fresh_handler cb w1)).
  split; [apply subscription_result|]. split; [apply subscription_result|].
  simpl. split; [lia|]. split.
  - intros n ev Hty. rewrite Hl2.
    change [mkListener ty (fresh_handler cb w0); mkListener ty (fresh_handler cb w1)]
      with ([mkListener ty (fresh_handler cb w0)]
            ++ [mkListener ty (fresh_handler cb w1)]).
    rewrite !deliveries_of_app, !invocations_app.
    unfold fresh_handler. rewrite !Hone by exact Hty. lia.
  - intros n ev u Hty Hu. rewrite Hl2.
    destruct Hw0 as (Hl0 & _).
    assert (Hrest : invocations cb
                      (deliveries_of n ev
                         (remove_listener u
                            (listeners w0 ++ [mkListener ty (fresh_handler cb w0);
                                              mkListener ty (fresh_handler cb w1)])))
                    = invocations cb (deliveries_of n ev (listeners w0)) + 1);
      [|exact Hrest].
    unfold remove_listener at 1. rewrite filter_app.
    destruct Hu as [->| ->].
    + change (filter _ (listeners w0))
        with (remove_listener (mkUnsubscribe ty (fresh_handler cb w0)) (listeners w0)).
      rewrite remove_keeps_older by exact Hl0.
      cbn [filter unsub_type unsub_handler]. unfold fresh_handler. rewrite Hn1.
      rewrite same_listener_self, same_listener_other by lia. cbn [negb].
      rewrite deliveries_of_app, invocations_app.
      now rewrite Hone by exact Hty.
    + change (filter _ (listeners w0))
        with (remove_listener (mkUnsubscribe ty (fresh_handler cb w1)) (listeners w0)).
      rewrite remove_keeps_older
        by (eapply Forall_impl; [|exact Hl0]; simpl; intros; lia).
      cbn [filter unsub_type unsub_handler]. unfold fresh_handler. rewrite Hn1.
      rewrite same_listener_self, same_listener_other by lia. cbn [negb].
      rewrite deliveries_of_app, invocations_app.
      now rewrite Hone by exact Hty.
Qed.

(** X4: subscribing the same callback twice through [onDirectoryScanBatch]
    (or [onDirectoryScanComplete]) registers two distinct handlers, since
    each call builds a new function object: from then on every event of the
    type invokes the callback twice more than before, and calling either of
    the two unsubscribe functions leaves exactly one of the two. *)
Theorem same_callback_subscribed_twice :
  double_subscription batch_event onDirectoryScanBatch
  /\ double_subscription complete_event onDirectoryScanComplete.
Proof.
  split; [apply (subscription_twice batch_event)
         |apply (subscription_twice complete_event)].
Qed.

Lemma subscription_undone (ty : string) : subscription_round_trip (subscription ty).
Proof.
  intros ops0 t0 cb.
  pose proof (run_well_formed ops0 _ (initial_well_formed t0)) as Hw.
  set (w0 := run ops0 (initial_window t0)) in *.
  exists (mkUnsubscribe ty (fresh_handler cb w0)).
  split; [apply subscription_result|].
  pose proof (subscription_appends ty cb w0 Hw) as Hls.
  destruct (subscription_fields ty cb w0) as (_ & Hn & Hdl & Hds & Htm).
  assert (Hnow : now (exec (subscription ty cb) w0) = now w0).
  { cbv [exec subscription bind new_handler addEventListener ret].
    simpl. now destruct (existsb _ _). }
  cbv [exec call_unsubscribe removeEventListener set_listeners set_next_handler].
  cbn [snd unsub_type unsub_handler].
  fold (exec (subscription ty cb) w0).
  rewrite Hnow, Hn, Hdl, Hds, Htm, Hls, filter_app.
  destruct Hw as (Hl & _).
  change (filter _ (listeners w0))
    with (remove_listener (mkUnsubscribe ty (fresh_handler cb w0)) (listeners w0)).
  rewrite remove_keeps_older by exact Hl.
  cbn [filter]. unfold fresh_handler. rewrite same_listener_self. cbn [negb].
  now rewrite app_nil_r.
Qed.

(** X5: subscribing and calling the returned unsubscribe function at once
    is a round trip: listeners, timers, clock and logs are as before the
    subscription; only the identity of the next function object has
    advanced. *)
Theorem subscribe_then_unsubscribe :
  subscription_round_trip onDirectoryScanBatch
  /\ subscription_round_trip onDirectoryScanComplete.
Proof.
  split; [apply (subscription_undone batch_event)
         |apply (subscription_undone complete_event)].
Qed.

(** X6: the stubs of the mock ([showDirectoryDialog], [onDirectoryScanError],
    [updateAllowedPaths], [onMenuAddFolder], [getTheme]) have no effect on
    the page: dropping every such call from a program, wherever it stands,
    leaves the final page the same. *)
Theorem stubs_can_be_dropped (ops : list Op) (w : Window) :
  run ops w = run (filter (fun o => negb (inert o)) ops) w.
Proof.
  revert w. induction ops as [|o ops IH]; intros w; [reflexivity|].
  simpl. destruct (inert o) eqn:E; simpl.
  - rewrite <- IH. destruct o; try discriminate E; reflexivity.
  - apply IH.
Qed.

End SubscribeTwice.

(* ------------------------------------------------------------------ *)
(** ** More about the scripts *)

Section StraightLine.

Import Playwright.
Local Open Scope nat_scope.

Variables C E : Type.
Variable entry : C -> option Exn -> E.

Lemma steps_cons (c : C) (rest : list C) (env : Env) (tr : list E) :
  Script.steps entry (c :: rest) env tr
  = Script.bind (Script.call entry c) (fun _ => Script.steps entry rest) env tr.
Proof.
  destruct rest as [|c' rest]; [|reflexivity].
  simpl. unfold Script.bind, Script.call, Script.ret.
  now destruct (env (List.length tr)).
Qed.

(** A sequence of calls stops at the first call that raises. *)
Lemma steps_stop (cs : list C) (env : Env) (tr : list E) :
  Script.stops_at_first_failure entry cs env tr (Script.steps entry cs env tr).
Proof.
  unfold Script.stops_at_first_failure.
  revert tr. induction cs as [|c rest IH]; intros tr.
  - left. split; [intros i Hi; simpl in Hi; lia|].
    simpl. unfold Script.ret, Script.returned. simpl. now rewrite app_nil_r.
  - rewrite steps_cons. unfold Script.bind, Script.call.
    destruct (env (List.length tr)) as [e|] eqn:E0.
    + right. exists 0, c, e. repeat split.
      * intros i Hi. lia.
      * now rewrite Nat.add_0_r.
    + specialize (IH (tr ++ [entry c None])).
      rewrite length_app in IH. simpl in IH.
      destruct IH as [[Hall ->]|(j & c' & e & Hnth & Hbefore & Hj & ->)].
      * left. split.
        -- intros i Hi. destruct i as [|i]; [now rewrite Nat.add_0_r|].
           simpl in Hi. specialize (Hall i ltac:(lia)).
           now replace (List.length tr + S i) with (List.length tr + 1 + i) by lia.
        -- unfold Script.returned. simpl. now rewrite <- app_assoc.
      * right. exists (S j), c', e. repeat split.
        -- exact Hnth.
        -- intros i Hi. destruct i as [|i]; [now rewrite Nat.add_0_r|].
           specialize (Hbefore i ltac:(lia)).
           now replace (List.length tr + S i) with (List.length tr + 1 + i) by lia.
        -- now replace (List.length tr + S j) with (List.length tr + 1 + j) by lia.
        -- unfold Script.returned. simpl. now rewrite <- !app_assoc.
Qed.

End StraightLine.

Section ProgressiveLoadingScript.

Import Playwright.
Local Open Scope nat_scope.

Lemma main_is_its_calls :
  VerifyProgressiveLoading.main
  = Script.steps VerifyProgressiveLoading.mkEntry VerifyProgressiveLoading.main_calls.
Proof. reflexivity. Qed.

(** X7: [main] of verify_progressive_loading.py has no [try]: it stops at
    the first call that raises and the exception propagates (the statement
    is about its ten calls: entering and leaving [async with
    async_playwright()] is taken not to raise).  So
    [browser.close()] is called exactly when the nine calls before it
    returned (never otherwise, and never twice), the screenshot
    verification.png is captured exactly in that case too (in particular
    only after the expectation of 50 placeholders passed), and [main]
    returns normally exactly when all ten calls returned. *)
Theorem main_closes_only_on_success (env : Env) :
  Script.stops_at_first_failure
    VerifyProgressiveLoading.mkEntry VerifyProgressiveLoading.main_calls env []
    (VerifyProgressiveLoading.main env [])
  /\ (VerifyProgressiveLoading.closes (fst (VerifyProgressiveLoading.main env [])) = 1
      <-> forall i, i < 9 -> env i = None)
  /\ VerifyProgressiveLoading.closes (fst (VerifyProgressiveLoading.main env [])) <= 1
  /\ (existsb (VerifyProgressiveLoading.captured
                 VerifyProgressiveLoading.verification_png)
              (fst (VerifyProgressiveLoading.main env [])) = true
      <-> forall i, i < 9 -> env i = None)
  /\ (snd (VerifyProgressiveLoading.main env []) = Returned tt
      <-> forall i, i < 10 -> env i = None).
Proof.
  pose proof (steps_stop _ _ VerifyProgressiveLoading.mkEntry
                VerifyProgressiveLoading.main_calls env []) as H.
  rewrite <- main_is_its_calls in H. split; [exact H|].
  destruct H as [[Hall ->]|(j & c & e & Hnth & Hbefore & Hj & ->)].
  - simpl in Hall.
    repeat split; try reflexivity; try (simpl; lia); intros; apply Hall; lia.
  - simpl in Hbefore, Hj.
    assert (Hlt : j < 10).
    { change 10 with (List.length VerifyProgressiveLoading.main_calls).
      apply nth_error_Some. rewrite Hnth. discriminate. }
    assert (Hfail : forall n, j < n -> ~ (forall i, i < n -> env i = None)).
    { intros n Hn Hnone. specialize (Hnone j Hn). congruence. }
    do 10 (destruct j as [|j]; [injection Hnth as <-; simpl;
      repeat split; intros; try discriminate; try lia;
      try (exfalso; eapply Hfail; [|eassumption]; lia); auto|]).
    lia.
Qed.

End ProgressiveLoadingScript.

Section HotkeyScripts.

Import Playwright HotkeyRuns HotkeySteps.
Local Open Scope nat_scope.

Lemma verify_hotkeys_body_is_its_calls :
  VerifyHotkeys.body = Script.steps mkEntry verify_hotkeys_calls.
Proof. reflexivity. Qed.

Lemma verify_hotkeys_fix_body_is_its_calls :
  VerifyHotkeysFix.body = Script.steps mkEntry verify_hotkeys_fix_calls.
Proof. reflexivity. Qed.

(** X8: the body of each hotkey script stops at its first failing step:
    either all its calls returned, in source order, or the calls before call
    number [j] returned, call [j] raised, and no later step (no later check,
    screenshot or success message) was executed. *)
Theorem hotkey_bodies_stop_at_first_failure (env : Env) (tr : list Entry) :
  Script.stops_at_first_failure mkEntry verify_hotkeys_calls env tr
    (VerifyHotkeys.body env tr)
  /\ Script.stops_at_first_failure mkEntry verify_hotkeys_fix_calls env tr
       (VerifyHotkeysFix.body env tr).
Proof.
  rewrite verify_hotkeys_body_is_its_calls, verify_hotkeys_fix_body_is_its_calls.
  split; apply steps_stop.
Qed.

Lemma closes_calls (tr : list Entry) :
  closes tr = List.length (filter is_close_call (map called tr)).
Proof.
  unfold closes. induction tr as [|x tr IH]; simpl; [reflexivity|].
  unfold is_close at 1. fold (is_close_call (called x)).
  destruct (is_close_call (called x)); simpl; now rewrite IH.
Qed.

Lemma called_returned (cs : list Call) :
  map called (Script.returned mkEntry cs) = cs.
Proof.
  unfold Script.returned. rewrite map_map. simpl. apply map_id.
Qed.

Lemma firstn_snoc {A : Type} (l : list A) (j : nat) (x : A) :
  nth_error l j = Some x -> firstn (S j) l = firstn j l ++ [x].
Proof.
  revert j. induction l as [|y l IH]; intros [|j] H; simpl in *; try discriminate.
  - now injection H as ->.
  - f_equal. now apply IH.
Qed.

(** The calls a stopped run made, after those of [tr], are the first [k]
    calls of the list, for some [k]. *)
Lemma stopped_calls (cs : list Call) (env : Env) (tr : list Entry)
      (out : list Entry * Outcome unit) :
  Script.stops_at_first_failure mkEntry cs env tr out ->
  exists k, map called (fst out) = map called tr ++ firstn k cs.
Proof.
  intros [[_ ->]|(j & c & e & Hnth & _ & _ & ->)]; simpl.
  - exists (List.length cs). now rewrite map_app, called_returned, firstn_all.
  - exists (S j). rewrite !map_app, called_returned.
    rewrite (firstn_snoc _ _ _ Hnth). reflexivity.
Qed.

Lemma firstn_In {A : Type} (l : list A) (k : nat) (x : A) :
  In x (firstn k l) -> In x l.
Proof.
  revert k. induction l as [|y l IH]; intros [|k] H; simpl in *; try contradiction.
  destruct H as [H|H]; [now left|right; eapply IH; eassumption].
Qed.

Lemma no_call_in_prefix (p : Call -> bool) (cs : list Call) (k : nat) :
  filter p cs = [] -> filter p (firstn k cs) = [].
Proof.
  intros H. apply filter_none. intros c Hc.
  destruct (p c) eqn:E; [|reflexivity].
  assert (Hin : In c (filter p cs))
    by (apply filter_In; split; [eapply firstn_In; eassumption|exact E]).
  rewrite H in Hin. contradiction.
Qed.

(** What [except Exception] adds after the body. *)
Lemma except_run (body : Py unit) (png : string) (env : Env)
      (tr tr1 : list Entry) (out : Outcome unit) :
  body env tr = (tr1, out) ->
  except_Exception body
    (fun e => bind (call (print ("An error occurred: " ++ str e)))
                   (fun _ => call (screenshot png))) env tr
  = (tr1 ++ fst (handler_part png env tr1 out), snd (handler_part png env tr1 out)).
Proof.
  intros Hb. unfold except_Exception, handler_part. rewrite Hb.
  destruct out as [[]|e]; simpl; [now rewrite app_nil_r|].
  destruct (is_Exception e); simpl; [|now rewrite app_nil_r].
  unfold bind, call.
  destruct (env (List.length tr1)) as [e1|] eqn:E1; simpl; [reflexivity|].
  rewrite length_app. simpl. rewrite Nat.add_1_r.
  destruct (env (S (List.length tr1))) as [e2|]; simpl;
    now rewrite <- app_assoc.
Qed.

(** A whole run, once the [try] is entered. *)
Lemma guarded_run (body : Py unit) (png : string) (env : Env)
      (tr1 : list Entry) (out : Outcome unit) :
  setup_succeeds env ->
  body env setup_trace = (tr1, out) ->
  guarded body png env []
  = ((tr1 ++ fst (handler_part png env tr1 out))
       ++ [mkEntry browser_close
                   (env (List.length (tr1 ++ fst (handler_part png env tr1 out))))],
     after_close env (List.length (tr1 ++ fst (handler_part png env tr1 out)))
                 (snd (handler_part png env tr1 out))).
Proof.
  intros Hs Hb. rewrite (guarded_enters_try body png env Hs).
  unfold try_except_finally. apply finally_close.
  now apply except_run.
Qed.

(** A run whose setup fails: at most the three setup calls, no close, and
    the exception propagates. *)
Lemma guarded_setup_fails (body : Py unit) (png : string) (env : Env) :
  ~ setup_succeeds env ->
  exists k e,
    map called (fst (guarded body png env []))
    = firstn k [chromium_launch true; new_context; new_page]
    /\ snd (guarded body png env []) = Raised e.
Proof.
  intros Hn. unfold guarded, bind at 1, VerifyHotkeys.setup, bind, call. simpl.
  destruct (env 0) as [e0|] eqn:E0; simpl; [exists 1, e0; now split|].
  destruct (env 1) as [e1|] eqn:E1; simpl; [exists 2, e1; now split|].
  destruct (env 2) as [e2|] eqn:E2; simpl; [exists 3, e2; now split|].
  exfalso. apply Hn. now repeat split.
Qed.

Lemma handler_part_calls (png : string) (env : Env) (tr1 : list Entry)
      (out : Outcome unit) :
  filter is_close_call (map called (fst (handler_part png env tr1 out))) = [].
Proof.
  unfold handler_part. destruct out as [[]|e]; [reflexivity|].
  destruct (is_Exception e); [|reflexivity].
  destruct (env (List.length tr1)); [reflexivity|].
  now destruct (env (S (List.length tr1))).
Qed.

Section OneScript.

Variable body : Py unit.
Variable cs : list Call.
Variable png : string.
Hypothesis Hbody : body = Script.steps mkEntry cs.
Hypothesis Hno_close : filter is_close_call cs = [].
Hypothesis Hno_shot : ~ In (screenshot png) cs.

Lemma body_calls (env : Env) :
  exists k,
    map called (fst (body env setup_trace))
    = [chromium_launch true; new_context; new_page] ++ firstn k cs.
Proof.
  destruct (stopped_calls cs env setup_trace (body env setup_trace)) as [k Hk].
  - rewrite Hbody. apply steps_stop.
  - now exists k.
Qed.

Lemma guarded_closes_once (env : Env) : closes_once (guarded body png) env.
Proof.
  split.
  - intros Hs.
    rewrite (guarded_run body png env _ _ Hs (surjective_pairing _)).
    cbn [fst]. rewrite closes_calls, !map_app, !filter_app, !length_app.
    destruct (body_calls env) as [k ->].
    rewrite filter_app, (no_call_in_prefix _ _ _ Hno_close), handler_part_calls.
    reflexivity.
  - intros Hn. destruct (guarded_setup_fails body png env Hn) as (k & e & Hk & He).
    split; [|now exists e].
    rewrite closes_calls, Hk.
    destruct k as [|[|[|[|k]]]]; reflexivity.
Qed.

Lemma guarded_error_screenshot (env : Env) :
  error_screenshot_iff (guarded body png) body png env.
Proof.
  unfold error_screenshot_iff, attempts. split.
  - intros Hin.
    assert (Hs : setup_succeeds env).
    { destruct (env 0) as [e0|] eqn:E0; [|destruct (env 1) as [e1|] eqn:E1;
        [|destruct (env 2) as [e2|] eqn:E2; [|now repeat split]]];
      exfalso;
      (destruct (guarded_setup_fails body png env) as (k & e & Hk & _);
       [intros (H0 & H1 & H2); congruence|]);
      rewrite Hk in Hin; apply firstn_In in Hin; simpl in Hin;
      intuition discriminate. }
    split; [exact Hs|].
    rewrite (guarded_run body png env _ _ Hs (surjective_pairing _)) in Hin.
    cbn [fst] in Hin. rewrite !map_app in Hin.
    destruct (body_calls env) as [k Hk]. rewrite Hk in Hin.
    apply in_app_iff in Hin. destruct Hin as [Hin|Hin];
      [|simpl in Hin; intuition discriminate].
    apply in_app_iff in Hin. destruct Hin as [Hin|Hin].
    + apply in_app_iff in Hin. destruct Hin as [Hin|Hin].
      * simpl in Hin. intuition discriminate.
      * apply firstn_In in Hin. contradiction.
    + destruct (body env setup_trace) as [tr1 out] eqn:Eb.
      cbn [fst snd] in Hin. unfold handler_part in Hin.
      destruct out as [[]|e]; [contradiction|].
      destruct (is_Exception e) eqn:Ee; [|contradiction].
      exists tr1, e.
      destruct (env (List.length tr1)) as [e1|] eqn:E1;
        [simpl in Hin; intuition discriminate|].
      now repeat split.
  - intros (Hs & tr1 & e & Hb & He & H1).
    rewrite (guarded_run body png env _ _ Hs Hb). cbn [fst].
    rewrite !map_app. apply in_app_iff. left. apply in_app_iff. right.
    unfold handler_part. rewrite He, H1.
    destruct (env (S (List.length tr1))); simpl; auto.
Qed.

Lemma guarded_returns (env : Env) : returns_iff (guarded body png) body env.
Proof.
  unfold returns_iff. split.
  - intros Hret.
    assert (Hs : setup_succeeds env).
    { destruct (env 0) as [e0|] eqn:E0; [|destruct (env 1) as [e1|] eqn:E1;
        [|destruct (env 2) as [e2|] eqn:E2; [|now repeat split]]];
      exfalso;
      (destruct (guarded_setup_fails body png env) as (k & e & _ & He);
       [intros (H0 & H1 & H2); congruence|]); congruence. }
    split; [exact Hs|].
    rewrite (guarded_run body png env _ _ Hs (surjective_pairing _)) in Hret.
    cbn [snd] in Hret. unfold after_close in Hret.
    destruct (body env setup_trace) as [tr1 out]. cbn [fst snd] in *.
    unfold handler_part, ends_normally in *.
    destruct out as [[]|e].
    + cbn [fst snd] in Hret. rewrite app_nil_r in Hret.
      destruct (env (List.length tr1)); [discriminate Hret|reflexivity].
    + destruct (is_Exception e).
      * destruct (env (List.length tr1)) as [e1|] eqn:E1.
        -- cbn [fst snd] in Hret.
           destruct (env (List.length (tr1 ++ _))); discriminate Hret.
        -- destruct (env (S (List.length tr1))) as [e2|] eqn:E2.
           ++ cbn [fst snd] in Hret.
              destruct (env (List.length (tr1 ++ _))); discriminate Hret.
           ++ cbn [fst snd] in Hret. rewrite length_app in Hret. simpl in Hret.
              replace (List.length tr1 + 2) with (S (S (List.length tr1)))
                in Hret by lia.
              destruct (env (S (S (List.length tr1)))); [discriminate Hret|].
              now repeat split.
      * cbn [fst snd] in Hret.
        destruct (env (List.length (tr1 ++ []))); discriminate Hret.
  - intros (Hs & Hend).
    rewrite (guarded_run body png env _ _ Hs (surjective_pairing _)).
    cbn [snd]. unfold after_close.
    destruct (body env setup_trace) as [tr1 out]. cbn [fst snd] in *.
    unfold handler_part, ends_normally in *.
    destruct out as [[]|e].
    + cbn [fst snd]. rewrite app_nil_r. now rewrite Hend.
    + destruct Hend as (He & H1 & H2 & H3). rewrite He, H1, H2.
      cbn [fst snd]. rewrite length_app. simpl.
      replace (List.length tr1 + 2) with (S (S (List.length tr1))) by lia.
      now rewrite H3.
Qed.

End OneScript.

Lemma not_among_verify_hotkeys_calls :
  ~ In (screenshot VerifyHotkeys.error_png) verify_hotkeys_calls.
Proof.
  intros H. simpl in H.
  repeat (destruct H as [H|H]; [discriminate H|]). exact H.
Qed.

Lemma not_among_verify_hotkeys_fix_calls :
  ~ In (screenshot VerifyHotkeysFix.error_png) verify_hotkeys_fix_calls.
Proof.
  intros H. simpl in H.
  repeat (destruct H as [H|H]; [discriminate H|]). exact H.
Qed.

(** X9: in every run of either hotkey script, [browser.close()] is called
    exactly once when the browser, the context and the page were created,
    and not at all when one of these three calls raised (its exception then
    propagates): never twice, whatever fails. *)
Theorem browser_closed_exactly_once (env : Env) :
  closes_once VerifyHotkeys.run_verification env
  /\ closes_once VerifyHotkeysFix.run env.
Proof.
  rewrite run_verification_guarded, run_guarded. split.
  - apply (guarded_closes_once _ _ _ verify_hotkeys_body_is_its_calls eq_refl).
  - apply (guarded_closes_once _ _ _ verify_hotkeys_fix_body_is_its_calls eq_refl).
Qed.

(** X10: in every run of either hotkey script, the error screenshot
    (error.png, error-hotkey-fix.png) is attempted if and only if a step of
    the body raised an [Exception] and the handler's message was printed: no
    run in which every step passed, and no run ended by a
    [KeyboardInterrupt] or before the [try], leaves an error screenshot. *)
Theorem error_screenshot_only_on_failure (env : Env) :
  error_screenshot_iff VerifyHotkeys.run_verification VerifyHotkeys.body
                       VerifyHotkeys.error_png env
  /\ error_screenshot_iff VerifyHotkeysFix.run VerifyHotkeysFix.body
                          VerifyHotkeysFix.error_png env.
Proof.
  rewrite run_verification_guarded, run_guarded. split.
  - apply (guarded_error_screenshot _ _ _ verify_hotkeys_body_is_its_calls
             not_among_verify_hotkeys_calls).
  - apply (guarded_error_screenshot _ _ _ verify_hotkeys_fix_body_is_its_calls
             not_among_verify_hotkeys_fix_calls).
Qed.

(** X11: either hotkey script returns normally if and only if the setup
    succeeded, [browser.close()] returned, and either every step passed or a
    step raised an [Exception] and the handler's message and screenshot
    succeeded.  So a failed check alone never makes the script raise, and
    every other failure (in the setup, of a class outside [Exception], in
    the handler, in the close) does. *)
Theorem script_returns_normally_iff (env : Env) :
  returns_iff VerifyHotkeys.run_verification VerifyHotkeys.body env
  /\ returns_iff VerifyHotkeysFix.run VerifyHotkeysFix.body env.
Proof.
  rewrite run_verification_guarded, run_guarded. split.
  - apply guarded_returns.
  - apply guarded_returns.
Qed.

End HotkeyScripts.

(* ------------------------------------------------------------------ *)
(** ** Scans and the directoryId: what holds per call, per id, per handler *)

Section ScansByDirectory.

Local Open Scope nat_scope.

Lemma events_for_own (d : DirectoryId) (t : Z) :
  events_for d (scan_events d t) = scan_events d t.
Proof.
  unfold events_for, scan_events, is_for, directory_of. cbn [filter detail].
  now rewrite !String.eqb_refl.
Qed.

Lemma stream_call_total_is_sum (a : StreamArgs) (w : Window) :
  call_total_is_sum a w.
Proof.
  unfold call_total_is_sum. rewrite stream_scheduled.
  change (map task (scan_timers (arg_directoryId a) (now w)))
    with (scan_events (arg_directoryId a) (now w)).
  split; [simpl; auto|].
  intros ev T Hin Hd. unfold batch_file_total. rewrite events_for_own.
  destruct Hin as [<-|[<-|[<-|[]]]]; try discriminate Hd.
  simpl in Hd. injection Hd as <-. reflexivity.
Qed.


Lemma scans_of_app (d : DirectoryId) (ops1 ops2 : list Op) :
  scans_of d (ops1 ++ ops2) = scans_of d ops1 + scans_of d ops2.
Proof. unfold scans_of. now rewrite filter_app, length_app. Qed.

Lemma turns_keep_registered (h n : nat) :
  keeps_registered h (repeat Turn n) = true.
Proof. induction n as [|n IH]; simpl; [reflexivity|exact IH]. Qed.

Lemma details_for_details (d : DirectoryId) (evs : list CustomEvent) :
  details_for d (map detail evs) = map detail (events_for d evs).
Proof.
  unfold details_for, events_for. induction evs as [|ev evs IH]; simpl; [reflexivity|].
  change (String.eqb (detail_directory (detail ev)) d) with (is_for d ev).
  destruct (is_for d ev); simpl; now rewrite IH.
Qed.

(** A handler of type [ty] subscribed before the only scan of [d] and kept
    registered is handed, once the timers have fired, exactly the details of
    the events of type [ty] of that scan, in order. *)
Lemma handed_scan (ty : string) (o_sub : Op) (cb : Callback)
      (ops0 ops1 : list Op) (t0 t : Z) (d : DirectoryId) :
  (forall w, step o_sub w = exec (subscription ty cb) w) ->
  events_for d (dispatched (drain (run (ops0 ++ o_sub :: ops1) (initial_window t0))))
  = scan_events d t ->
  scans_of d ops0 = 0 ->
  keeps_registered (next_handler (run ops0 (initial_window t0))) ops1 = true ->
  handed (next_handler (run ops0 (initial_window t0))) d
         (drain (run (ops0 ++ o_sub :: ops1) (initial_window t0)))
  = map detail (filter (has_type ty) (scan_events d t)).
Proof.
  intros Hsub Hd H0 Hk.
  pose proof (run_well_formed ops0 _ (initial_well_formed t0)) as Hw.
  destruct (scan_invariant ops0 t0 d) as [t' Hbefore]; [lia|].
  rewrite H0 in Hbefore. simpl in Hbefore.
  apply app_eq_nil in Hbefore. destruct Hbefore as [Hbefore _].
  rewrite run_app in Hd |- *. simpl run in Hd |- *. rewrite Hsub in Hd |- *.
  set (w0 := run ops0 (initial_window t0)) in *.
  set (w1 := exec (subscription ty cb) w0) in *.
  unfold drain in Hd |- *. rewrite run_timers_as_run, <- run_app in Hd |- *.
  set (n := List.length (timers (run ops1 w1))) in *.
  assert (Hk' : keeps_registered (next_handler w0) (ops1 ++ repeat Turn n) = true).
  { unfold keeps_registered in *. rewrite forallb_app, Hk.
    apply (turns_keep_registered (next_handler w0) n). }
  destruct (run_received _ ty cb _ _ (subscription_listening ty cb w0 Hw) Hk')
    as (emitted & Hdis & Hrec).
  destruct (subscription_fields ty cb w0) as (_ & _ & Hdel & Hds & _).
  fold w1 in Hdel, Hds, Hdis, Hrec.
  assert (Hnone : received_by (next_handler w0) w1 = []).
  { unfold received_by. rewrite Hdel. now apply received_by_fresh. }
  rewrite Hnone in Hrec. simpl in Hrec.
  rewrite Hdis, Hds, events_for_app, Hbefore in Hd. simpl in Hd.
  unfold handed. rewrite Hrec, details_for_details.
  unfold events_for at 1. rewrite filter_comm.
  fold (events_for d emitted). now rewrite Hd.
Qed.






Lemma batch_subscriber_handed (ops : list Op) (t0 t : Z) (d : DirectoryId)
      (cb : Callback) :
  events_for d (dispatched (drain (run ops (initial_window t0)))) = scan_events d t ->
  subscriber_is_handed (CallOnDirectoryScanBatch cb) d ops t0
    [BatchDetail d (files_at 1 t); BatchDetail d (files_at 51 t)].
Proof.
  intros Hd ops0 ops1 -> H0 Hk.
  now rewrite (handed_scan batch_event (CallOnDirectoryScanBatch cb) cb
                 ops0 ops1 t0 t d (fun w => eq_refl) Hd H0 Hk).
Qed.

Lemma completion_subscriber_handed (ops : list Op) (t0 t : Z) (d : DirectoryId)
      (cb : Callback) :
  events_for d (dispatched (drain (run ops (initial_window t0)))) = scan_events d t ->
  subscriber_is_handed (CallOnDirectoryScanComplete cb) d ops t0
    [CompleteDetail d 100].
Proof.
  intros Hd ops0 ops1 -> H0 Hk.
  now rewrite (handed_scan complete_event (CallOnDirectoryScanComplete cb) cb
                 ops0 ops1 t0 t d (fun w => eq_refl) Hd H0 Hk).
Qed.

(** C1 as stated fails when a directoryId is scanned again: here dir-1 is
    scanned, its scan completes, and it is scanned a second time.  The
    second scan ends in a completion carrying total 100, while the batches
    dispatched for dir-1 hold 200 files. *)
Lemma reused_id_total_is_not_the_sum :
  scans_of "dir-1"%string reused_id = 2
  /\ timers (run reused_id (initial_window 0)) = []
  /\ map (fun ev => (type ev, file_count ev))
         (events_for "dir-1"%string (dispatched (run reused_id (initial_window 0))))
     = [ (batch_event, 50); (batch_event, 50); (complete_event, 0);
         (batch_event, 50); (batch_event, 50); (complete_event, 0) ]
  /\ last (dispatched (run reused_id (initial_window 0)))
          (mkEvent batch_event (BatchDetail EmptyString []))
     = mkEvent complete_event (CompleteDetail "dir-1"%string 100)
  /\ batch_file_total "dir-1"%string (dispatched (run reused_id (initial_window 0)))
     = 200
  /\ 100%Z <> Z.of_nat
               (batch_file_total "dir-1"%string
                  (dispatched (run reused_id (initial_window 0)))).
Proof.
  repeat split; try reflexivity.
  change (batch_file_total "dir-1"%string
            (dispatched (run reused_id (initial_window 0)))) with 200.
  discriminate.
Qed.

(** C1, amended: for every directoryId [d] that is passed to
    [streamDirectoryFiles] once in the run, at every moment at which a
    completion for [d] carrying [total = T] has been dispatched, [T] is the
    sum of the lengths of the [files] of the batch events dispatched for
    [d]; once the timers have fired the completion with total 100 follows
    two batches of 50 files; and these are what subscribers receive: a batch
    handler subscribed before the scan and kept registered is handed
    exactly the two batches of [d], a completion handler exactly the
    completion with total 100.  Whether or not ids are reused, every single
    call schedules two batches and a completion whose total is the sum of
    the lengths of these two batches. *)
Theorem completion_total_is_batch_sum (ops : list Op) (t0 : Z) (d : DirectoryId) :
  scans_of d ops = 1 ->
  (forall ev T,
      In ev (dispatched (run ops (initial_window t0))) ->
      detail ev = CompleteDetail d T ->
      T = Z.of_nat (batch_file_total d (dispatched (run ops (initial_window t0)))))
  /\ In (mkEvent complete_event (CompleteDetail d 100))
        (dispatched (drain (run ops (initial_window t0))))
  /\ map file_count
         (filter is_batch
                 (events_for d (dispatched (drain (run ops (initial_window t0))))))
     = [50; 50]
  /\ (exists t, forall cb,
         subscriber_is_handed (CallOnDirectoryScanBatch cb) d ops t0
           [BatchDetail d (files_at 1 t); BatchDetail d (files_at 51 t)])
  /\ (forall cb,
         subscriber_is_handed (CallOnDirectoryScanComplete cb) d ops t0
           [CompleteDetail d 100])
  /\ (forall a w, call_total_is_sum a w).
Proof.
  intros Hn.
  destruct (total_is_sum_when_scanned_once ops t0 d Hn) as (H1 & H2 & H3).
  destruct (drained_scan ops t0 d Hn) as [t Hd].
  split; [exact H1|]. split; [exact H2|]. split; [exact H3|].
  split; [exists t; intros cb; now apply batch_subscriber_handed|].
  split; [intros cb; now apply (completion_subscriber_handed ops t0 t)|].
  apply stream_call_total_is_sum.
Qed.

(** In the run [one_scan] dir-1 is scanned once, after two subscriptions:
    the completion carries the sum of the batches, and the batch handler
    (the first function object) is handed the two batches. *)
Lemma completion_total_is_batch_sum_witness :
  scans_of "dir-1"%string one_scan = 1
  /\ In (mkEvent complete_event (CompleteDetail "dir-1"%string 100))
        (dispatched (drain (run one_scan (initial_window 0))))
  /\ 100%Z = Z.of_nat (batch_file_total "dir-1"%string
                         (dispatched (run one_scan (initial_window 0))))
  /\ map (fun x => match x with
                   | BatchDetail _ files => List.length files
                   | CompleteDetail _ _ => 0
                   end)
         (handed 0 "dir-1"%string (drain (run one_scan (initial_window 0))))
     = [50; 50].
Proof.
  split; [reflexivity|].
  pose proof (completion_total_is_batch_sum one_scan 0 "dir-1"%string eq_refl)
    as (H1 & H2 & _ & H4 & _).
  split; [exact H2|]. split.
  - apply (H1 (mkEvent complete_event (CompleteDetail "dir-1"%string 100)));
      [|reflexivity].
    right. right. left. reflexivity.
  - destruct H4 as [t H4].
    pose proof (H4 0%nat [] (skipn 1 one_scan) eq_refl eq_refl eq_refl) as E.
    change (next_handler (run [] (initial_window 0))) with 0 in E.
    rewrite E. reflexivity.
Defined.




End ScansByDirectory.
